(** * mergify-engine: the subscription cache and the per-pull-request engine

    A shallow embedding of [mergify_engine/sub_utils.py] and
    [mergify_engine/engine/__init__.py].  Python dictionaries become
    [gmap]s, exceptions an explicit outcome, and every call to an external
    collaborator (Redis, the HTTP client, the check-run API, the command
    and action runners) is appended to a log of calls carried by the
    state, so that "nothing was written" and "the source was not asked"
    are statements about that log.  Calls to the loggers ([LOG.info],
    [ctxt.log.debug], [ctxt.log.warning]) are left out: they change
    nothing the two modules read. *)

From Stdlib Require Import ZArith Ascii String List.
From stdpp Require Import base option list gmap strings pretty.

Local Open Scope string_scope.
Local Open Scope Z_scope.
Local Open Scope list_scope.

(** ** Python outcomes: a state-and-exception monad *)

Module Py.

(** The exceptions the two modules can see. *)
Inductive exn :=
| KeyError (key : string)
| IndexError
| HTTPClientSideError (status : Z) (message : string)
| HTTPServerSideError (status : Z) (message : string)
| NoRules
| InvalidRules (message : string).

(** What running a piece of code in state [S] gives: a value, a raised
    exception, or a loop that was cut by its iteration budget. *)
Inductive outcome (S A : Type) :=
| Ok (a : A) (s : S)
| Raise (e : exn) (s : S)
| OutOfFuel.
Arguments Ok {S A} a s.
Arguments Raise {S A} e s.
Arguments OutOfFuel {S A}.

Definition M (S A : Type) := S -> outcome S A.

Definition ret {S A} (a : A) : M S A := fun s => Ok a s.
Definition raise {S A} (e : exn) : M S A := fun s => Raise e s.
Definition bind {S A B} (m : M S A) (k : A -> M S B) : M S B :=
  fun s => match m s with
           | Ok a s' => k a s'
           | Raise e s' => Raise e s'
           | OutOfFuel => OutOfFuel
           end.
Definition gets {S A} (f : S -> A) : M S A := fun s => Ok (f s) s.
Definition modify {S} (f : S -> S) : M S unit := fun s => Ok tt (f s).

(** [for x in l: body x] *)
Fixpoint for_each {S A} (l : list A) (body : A -> M S unit) : M S unit :=
  match l with
  | [] => ret tt
  | x :: l' => bind (body x) (fun _ => for_each l' body)
  end.

(** The state an outcome ends in, when it ends. *)
Definition final {S A} (o : outcome S A) : option S :=
  match o with
  | Ok _ s => Some s
  | Raise _ s => Some s
  | OutOfFuel => None
  end.

End Py.

Import Py.

Declare Scope py_scope.
Delimit Scope py_scope with py.
Notation "x <- m ;; k" := (bind m (fun x => k))
  (at level 100, m at next level, right associativity) : py_scope.
Notation "m ;;; k" := (bind m (fun _ => k))
  (at level 100, right associativity) : py_scope.
Local Open Scope py_scope.

(** Python truthiness of a [str]/[bytes] value: empty is false. *)
Definition truthy (s : string) : bool := negb (String.eqb s "").

(** ** sub_utils.py *)

Module SubUtils.

(** A subscription as the engine keeps it: [tokens] maps a login to its
    access token. *)
Record Subscription := {
  tokens : gmap string string;
  subscription_active : bool;
  subscription_reason : string
}.

(** The body of the authoritative answer: there a token is an object
    with an [access_token] entry. *)
Record Token := { access_token : string }.

Record ResponseBody := {
  r_tokens : gmap string Token;
  r_subscription_active : bool;
  r_subscription_reason : string
}.

(** What [client.get] on the authoritative source does: it answers, it
    raises [http.HTTPNotFound] with a message, or it raises something
    else. *)
Inductive http_result :=
| Response (body : ResponseBody)
| HTTPNotFound (message : string)
| HTTPFailure (e : exn).

(** Calls that leave the process. *)
Inductive Call :=
| http_get (owner_id : N)
| redis_get (key : string)
| redis_setex (key : string) (ttl : Z) (value : string).

(** The world the module runs in: the clock, the Redis cache (each
    entry with the instant it expires at), the authoritative source and
    the log of calls. *)
Record World := {
  now : Z;
  redis : gmap string (string * Z);
  source : N -> http_result;
  calls : list Call
}.

Definition log (c : Call) (w : World) : World :=
  {| now := now w; redis := redis w; source := source w;
     calls := calls w ++ [c] |}.

(** Time passing between two calls. *)
Definition elapse (dt : Z) (w : World) : World :=
  {| now := now w + dt; redis := redis w; source := source w;
     calls := calls w |}.

(** Modelled from the spec: the encrypted cache [get/set(key, ciphertext,
    ttl)] of the Redis client, which is not part of the sources.  [setex]
    stores a value that lives for [ttl] time units; [get] answers [None]
    for a key that is absent or whose time is over. *)
Definition r_setex (key : string) (ttl : Z) (value : string) : M World unit :=
  fun w => Ok tt (log (redis_setex key ttl value)
    {| now := now w; redis := <[key := (value, now w + ttl)]> (redis w);
       source := source w; calls := calls w |}).

Definition r_get (key : string) : M World (option string) :=
  fun w =>
    let v := match redis w !! key with
             | Some (value, expires) =>
                 if decide (now w < expires) then Some value else None
             | None => None
             end in
    Ok v (log (redis_get key) w).

(** Modelled from the spec: the authoritative subscription source
    [fetch(account_id) -> subscription-or-not-found], reached through
    the HTTP client. *)
Definition client_get (owner_id : N) : M World http_result :=
  fun w => Ok (source w owner_id) (log (http_get owner_id) w).

(** ["subscription-cache-owner-%s" % owner_id] *)
Definition cache_key (owner_id : N) : string :=
  "subscription-cache-owner-" +:+ pretty owner_id.

Section WithCodec.

(** [json.dumps(..).encode()], [json.loads(..decode())] and the
    [crypto] module are outside the sources. *)
Variable json_dumps : Subscription -> string.
Variable json_loads : string -> Subscription.
Variable encrypt : string -> string.
Variable decrypt : string -> string.

Definition _retrieve_subscription_from_db (owner_id : N)
  : M World Subscription :=
  r <- client_get owner_id;;
  match r with
  | HTTPNotFound message =>
      ret {| tokens := ∅;
             subscription_active := false;
             subscription_reason := message |}
  | Response body =>
      ret {| tokens := access_token <$> r_tokens body;
             subscription_active := r_subscription_active body;
             subscription_reason := r_subscription_reason body |}
  | HTTPFailure e => raise e
  end.

Definition _retrieve_subscription_from_cache (owner_id : N)
  : M World (option Subscription) :=
  encrypted_sub <- r_get (cache_key owner_id);;
  match encrypted_sub with
  | Some c =>
      if truthy c then ret (Some (json_loads (decrypt c))) else ret None
  | None => ret None
  end.

Definition save_subscription_to_cache (owner_id : N) (sub : Subscription)
  : M World unit :=
  let encrypted := encrypt (json_dumps sub) in
  r_setex (cache_key owner_id) 3600 encrypted.

Definition get_subscription (owner_id : N) : M World Subscription :=
  sub <- _retrieve_subscription_from_cache owner_id;;
  match sub with
  | None =>
      sub <- _retrieve_subscription_from_db owner_id;;
      save_subscription_to_cache owner_id sub;;;
      ret sub
  | Some sub => ret sub
  end.

End WithCodec.

End SubUtils.

(** ** engine/__init__.py *)

Module Engine.

(** [actions_runner.SUMMARY_NAME]; [run] writes the same name as a
    literal at its permissions gate. *)
Definition SUMMARY_NAME : string := "Summary".

(** A check-run as the check-run API returns it, with the entries the
    engine reads, [c["name"]], [c["app"]["id"]], [c["output"]["title"]]
    and [c["output"]["summary"]], and the conclusion it was published
    with. *)
Record CheckRun := {
  name : string;
  app_id : Z;
  conclusion : string;
  output_title : string;
  output_summary : string
}.

(** The [output] argument of [check_api.set_check_run]. *)
Record Output := {
  title : string;
  summary : string;
  annotations : option (list string)
}.

(** [data["comment"]] of an issue_comment event. *)
Record Comment := { body : string; user : string }.

(** The payload of an event.  It always has an action; [before] and
    [after] are entries that may be missing, and so is [comment]. *)
Record Data := {
  action : string;
  before : option string;
  after : option string;
  comment : option Comment
}.

Record Source := { event_type : string; data : Data }.

Record File := { filename : string; contents_url : string }.

Record Pull := {
  head_sha : string;            (* pull["head"]["sha"] *)
  base_ref : string;            (* pull["base"]["ref"] *)
  default_branch : string;      (* pull["base"]["repo"]["default_branch"] *)
  repo_name : string;           (* pull["base"]["repo"]["name"] *)
  private : bool                (* pull["base"]["repo"]["private"] *)
}.

Record Client := { permissions_need_to_be_updated : bool }.

Record Subscription := {
  has_private_repository : bool;  (* has_feature(Features.PRIVATE_REPOSITORY) *)
  reason : string
}.

(** What an [InvalidRules] exception carries: [str(e)] and
    [e.get_annotations(e.filename)]. *)
Record InvalidRulesError := {
  error_message : string;
  error_annotations : list string
}.

(** [str.split(sep)] for a non-empty separator: cut at each occurrence
    of [sep], left to right, occurrences not overlapping.  [skip] counts
    the characters of a separator still to be dropped. *)
Fixpoint split_go (sep s : string) (skip : nat) (cur : string) : list string :=
  match s with
  | EmptyString => [cur]
  | String c s' =>
      match skip with
      | S k => split_go sep s' k cur
      | O =>
          if String.prefix sep s
          then cur :: split_go sep s' (Nat.pred (String.length sep)) ""
          else split_go sep s' O (cur +:+ String c "")
      end
  end.

Definition split (sep s : string) : list string := split_go sep s O "".

(** [dict(items)]: a later item with the same key replaces an earlier
    one. *)
Definition dict {V} (items : list (string * V)) : gmap string V :=
  foldl (fun m kv => <[kv.1 := kv.2]> m) ∅ items.

Section WithRules.

(** The rule language is outside the engine: rules are opaque. *)
Context {Rule : Type}.

(** [config.INTEGRATION_ID], the packaged baseline rules and
    [rules.MERGIFY_CONFIG_FILENAMES]: constants of modules that are
    not part of the sources. *)
Variable INTEGRATION_ID : Z.
Variable DEFAULT_PULL_REQUEST_RULES : list Rule.
Variable MERGIFY_CONFIG_FILENAMES : list string.

(** [mergify_config["pull_request_rules"].rules] *)
Record MergifyConfig := { pull_request_rules : list Rule }.

(** What [rules.get_mergify_config] does. *)
Inductive config_result :=
| ConfigFound (config_filename : string) (mergify_config : MergifyConfig)
| ConfigNoRules
| ConfigInvalidRules (e : InvalidRulesError).

(** Calls to the collaborators that write or act. *)
Inductive Call :=
| CheckApiSetCheckRun (sha check_name status concl : string) (output : Output)
| SaveLastSummaryHeadSha (sha : string)
| DeleteLastSummaryHeadSha
| RunPendingCommandsTasks
| CommandsHandle (comment_body comment_user : string)
| ActionsHandle (rules : list Rule).

(** The world one run sees: the check-runs of each revision, the
    persisted pointer of this pull request, its changed files, the
    configuration found at a ref ([None] for the default one) and the
    log of calls. *)
Record World := {
  check_runs : gmap string (list CheckRun);
  last_summary_head_sha : option string;
  pull_files : list File;
  repo_config : option string -> config_result;
  calls : list Call
}.

Record Context := {
  client : Client;
  pull : Pull;
  subscription : Subscription;
  sources : list Source
}.

Definition log (c : Call) (w : World) : World :=
  {| check_runs := check_runs w;
     last_summary_head_sha := last_summary_head_sha w;
     pull_files := pull_files w;
     repo_config := repo_config w;
     calls := calls w ++ [c] |}.

(** Modelled from the spec: [check_api.get_checks_for_ref], the
    check-run API's [list(context, revision, ...)], which is not part
    of the sources: the check-runs of a revision, only those with
    the given name when one is given. *)
Definition get_checks_for_ref (w : World) (sha : string)
  (check_name : option string) : list CheckRun :=
  let all := default [] (check_runs w !! sha) in
  match check_name with
  | Some n => List.filter (fun c => String.eqb (name c) n) all
  | None => all
  end.

(** Modelled from the spec: [ctxt.pull_engine_check_runs], an
    attribute of the context class, which is not part of the sources:
    the context's read-through view of the check-runs of the pull
    request's current head. *)
Definition pull_engine_check_runs (ctxt : Context) (w : World)
  : list CheckRun :=
  get_checks_for_ref w (head_sha (pull ctxt)) None.

(** Modelled from the spec: [check_api.set_check_run], the check-run
    API's [set(context, name, status, conclusion, output)], which is not
    part of the sources: it publishes the named check-run on the
    current head as this integration, in place of one it published
    under that name before. *)
Definition published (n concl : string) (output : Output) : CheckRun :=
  {| name := n; app_id := INTEGRATION_ID; conclusion := concl;
     output_title := title output; output_summary := summary output |}.

Definition mine (n : string) (c : CheckRun) : bool :=
  String.eqb (name c) n && Z.eqb (app_id c) INTEGRATION_ID.

Definition upsert (c : CheckRun) (l : list CheckRun) : list CheckRun :=
  if existsb (mine (name c)) l
  then List.map (fun c' => if mine (name c) c' then c else c') l
  else l ++ [c].

Definition set_check_run (ctxt : Context) (n status concl : string)
  (output : Output) : M World unit :=
  fun w =>
    let sha := head_sha (pull ctxt) in
    Ok tt (log (CheckApiSetCheckRun sha n status concl output)
      {| check_runs :=
           <[sha := upsert (published n concl output)
                      (default [] (check_runs w !! sha))]> (check_runs w);
         last_summary_head_sha := last_summary_head_sha w;
         pull_files := pull_files w;
         repo_config := repo_config w;
         calls := calls w |}).

(** Modelled from the spec: the persisted pointer store
    [get/save/delete(context) -> revision-or-absent] of
    [actions_runner], which is not part of the sources; [save] records
    the current head. *)
Definition get_last_summary_head_sha : M World (option string) :=
  gets last_summary_head_sha.

Definition save_last_summary_head_sha (ctxt : Context) : M World unit :=
  fun w =>
    let sha := head_sha (pull ctxt) in
    Ok tt (log (SaveLastSummaryHeadSha sha)
      {| check_runs := check_runs w;
         last_summary_head_sha := Some sha;
         pull_files := pull_files w;
         repo_config := repo_config w;
         calls := calls w |}).

Definition delete_last_summary_head_sha (ctxt : Context) : M World unit :=
  fun w =>
    Ok tt (log DeleteLastSummaryHeadSha
      {| check_runs := check_runs w;
         last_summary_head_sha := None;
         pull_files := pull_files w;
         repo_config := repo_config w;
         calls := calls w |}).

(** Modelled from the spec: the command handler and the rule/action
    evaluator, which are not part of the sources: hand-offs, kept as
    calls. *)
Definition run_pending_commands_tasks (ctxt : Context) : M World unit :=
  modify (log RunPendingCommandsTasks).

Definition commands_handle (ctxt : Context) (b u : string) : M World unit :=
  modify (log (CommandsHandle b u)).

Definition actions_handle (rules : list Rule) (ctxt : Context)
  : M World unit :=
  modify (log (ActionsHandle rules)).

(** [rules.get_mergify_config(client, repo, ref=ref)] *)
Definition get_mergify_config (ref : option string) : M World config_result :=
  gets (fun w => repo_config w ref).

(** *** check_configuration_changes *)

(** The loop over [ctxt.files]: [ref] ends as the ref of the last
    changed file that is a configuration file; [split("?ref=")[1]]
    raises when the url has no such part. *)
Fixpoint config_ref (fs : list File) (ref : option string)
  : M World (option string) :=
  match fs with
  | [] => ret ref
  | f :: fs' =>
      if existsb (String.eqb (filename f)) MERGIFY_CONFIG_FILENAMES
      then match split "?ref=" (contents_url f) !! 1%nat with
           | Some r => config_ref fs' (Some r)
           | None => raise IndexError
           end
      else config_ref fs' ref
  end.

Definition check_configuration_changes (ctxt : Context) : M World bool :=
  if String.eqb (default_branch (pull ctxt)) (base_ref (pull ctxt)) then
    fs <- gets pull_files;;
    ref <- config_ref fs None;;
    match ref with
    | Some r =>
        c <- get_mergify_config (Some r);;
        match c with
        | ConfigInvalidRules e =>
            set_check_run ctxt SUMMARY_NAME "completed" "failure"
              {| title := "The new Mergify configuration is invalid";
                 summary := error_message e;
                 annotations := Some (error_annotations e) |};;;
            ret true
        | ConfigFound _ _ =>
            set_check_run ctxt SUMMARY_NAME "completed" "success"
              {| title := "The new Mergify configuration is valid";
                 summary := "This pull request must be merged "
                            +:+ "manually because it modifies Mergify configuration";
                 annotations := None |};;;
            ret true
        | ConfigNoRules => raise NoRules
        end
    | None => ret false
    end
  else ret false.

(** *** get_summary_from_sha *)

Definition get_summary_from_sha (w : World) (sha : string)
  : option CheckRun :=
  let checks := get_checks_for_ref w sha (Some SUMMARY_NAME) in
  let checks :=
    List.filter (fun c => Z.eqb (app_id c) INTEGRATION_ID) checks in
  match checks with
  | c :: _ => Some c
  | [] => None
  end.

(** *** get_summary_from_synchronize_event *)

(** The generator that feeds [dict]: one item per source that is a
    [pull_request] event with action [synchronize] and has an [after]
    entry. *)
Definition is_synchronize (s : Source) : bool :=
  String.eqb (event_type s) "pull_request"
  && String.eqb (action (data s)) "synchronize".

Definition synchronize_item (s : Source) : option (string * Data) :=
  if is_synchronize s then
    match after (data s) with
    | Some a => Some (a, data s)
    | None => None
    end
  else None.

Definition synchronize_items (srcs : list Source) : list (string * Data) :=
  omap synchronize_item srcs.

Definition synchronize_events (ctxt : Context) : gmap string Data :=
  dict (synchronize_items (sources ctxt)).

(** How one turn of the [while] loop ends. *)
Inductive turn :=
| Continue (events : gmap string Data) (after_sha : string)
| Return (previous_summary : CheckRun)
| Break
| Throw (e : exn).

(** The body of the loop: [pop(after_sha, None)], then the lookup at
    the event's [before].  An event of the mapping is a non-empty
    dictionary, so [if sync_event:] asks whether the key was there. *)
Definition walk_turn (w : World) (events : gmap string Data)
  (after_sha : string) : turn :=
  match events !! after_sha with
  | Some sync_event =>
      let events := delete after_sha events in
      match before sync_event with
      | Some b =>
          match get_summary_from_sha w b with
          | Some previous_summary => Return previous_summary
          | None => Continue events b
          end
      | None => Throw (KeyError "before")
      end
  | None => Break
  end.

(** How the whole loop ends: with a summary, at a revision that is not a
    key, with the mapping empty, with an exception, or cut by the budget.
    [walk] gives it with the number of turns taken.  The test
    [if synchronize_events:] before the loop is the loop's own test at its
    first turn. *)
Inductive walk_end :=
| Found (previous_summary : CheckRun)
| Gap
| Exhausted
| Failed (e : exn)
| Cut.

Fixpoint walk (fuel : nat) (w : World) (events : gmap string Data)
  (after_sha : string) : walk_end * nat :=
  if decide (events = ∅) then (Exhausted, O)
  else match fuel with
       | O => (Cut, O)
       | S fuel' =>
           match walk_turn w events after_sha with
           | Continue events' after_sha' =>
               let r := walk fuel' w events' after_sha' in (r.1, S r.2)
           | Return previous_summary => (Found previous_summary, 1%nat)
           | Break => (Gap, 1%nat)
           | Throw e => (Failed e, 1%nat)
           end
       end.

Definition get_summary_from_synchronize_event (ctxt : Context)
  : M World (option CheckRun) :=
  fun w =>
    let synchronize_events := synchronize_events ctxt in
    match (walk (size synchronize_events) w synchronize_events
             (head_sha (pull ctxt))).1 with
    | Found previous_summary => Ok (Some previous_summary) w
    | Gap | Exhausted => Ok None w
    | Failed e => Raise e w
    | Cut => OutOfFuel
    end.

(** *** ensure_summary_on_head_sha *)

(** [if sha:] is false for [None] and for an empty value; a check-run is
    a non-empty dictionary, so [if previous_summary:] asks whether there
    is one. *)

Definition ensure_summary_on_head_sha (ctxt : Context) : M World unit :=
  checks <- gets (pull_engine_check_runs ctxt);;
  if existsb (fun check => String.eqb (name check) SUMMARY_NAME) checks
  then ret tt
  else
    sha <- get_last_summary_head_sha;;
    previous_summary <-
      match sha with
      | Some sha =>
          if truthy sha
          then gets (fun w => get_summary_from_sha w sha)
          else get_summary_from_synchronize_event ctxt
      | None => get_summary_from_synchronize_event ctxt
      end;;
    match previous_summary with
    | Some previous_summary =>
        set_check_run ctxt SUMMARY_NAME "completed" "success"
          {| title := output_title previous_summary;
             summary := output_summary previous_summary;
             annotations := None |};;;
        save_last_summary_head_sha ctxt
    | None => ret tt
    end.

(** *** run *)

Definition is_issue_comment (s : Source) : bool :=
  String.eqb (event_type s) "issue_comment".

Definition has_action (acts : list string) (s : Source) : bool :=
  String.eqb (event_type s) "pull_request"
  && existsb (String.eqb (action (data s))) acts.

Definition handle_comment (ctxt : Context) (s : Source) : M World unit :=
  match comment (data s) with
  | Some c => commands_handle ctxt (body c) (user c)
  | None => raise (KeyError "comment")
  end.

Definition run (client : Client) (pull : Pull) (sub : Subscription)
  (batch : list Source) : M World unit :=
  let issue_comment_sources := List.filter is_issue_comment batch in
  let ctxt :=
    {| client := client; pull := pull; subscription := sub;
       sources := List.filter (fun s => negb (is_issue_comment s)) batch |} in
  run_pending_commands_tasks ctxt;;;
  for_each issue_comment_sources (handle_comment ctxt);;;
  match sources ctxt with
  | [] => ret tt
  | _ :: _ =>
    if permissions_need_to_be_updated client then
      set_check_run ctxt "Summary" "completed" "failure"
        {| title := "Required GitHub permissions are missing.";
           summary := "You can accept them at https://dashboard.mergify.io/";
           annotations := None |}
    else
      changed <- check_configuration_changes ctxt;;
      if changed then ret tt
      else
        c <- get_mergify_config None;;
        match c with
        | ConfigNoRules => ret tt
        | ConfigInvalidRules e =>
            if existsb (has_action ["opened"; "synchronize"])
                 (sources ctxt)
            then set_check_run ctxt SUMMARY_NAME "completed" "failure"
                   {| title := "The Mergify configuration is invalid";
                      summary := error_message e;
                      annotations := Some (error_annotations e) |}
            else ret tt
        | ConfigFound _ mergify_config =>
            let rules :=
              (pull_request_rules mergify_config
               ++ DEFAULT_PULL_REQUEST_RULES)%list in
            if private pull && negb (has_private_repository sub) then
              set_check_run ctxt SUMMARY_NAME "completed" "failure"
                {| title := "Mergify is disabled";
                   summary := reason sub;
                   annotations := None |}
            else
              ensure_summary_on_head_sha ctxt;;;
              (if existsb (has_action ["closed"]) (sources ctxt)
               then delete_last_summary_head_sha ctxt
               else ret tt);;;
              actions_handle rules ctxt
        end
  end.

(** *** Notions used to state the properties of the walk *)

(** One loop state leads to another through turns that continue. *)
Inductive reaches (w : World)
  : gmap string Data * string -> gmap string Data * string -> Prop :=
| reaches_here st : reaches w st st
| reaches_turn events after_sha events' after_sha' st :
    events <> ∅ ->
    walk_turn w events after_sha = Continue events' after_sha' ->
    reaches w (events', after_sha') st ->
    reaches w (events, after_sha) st.

(** [is_chain head links first]: the (after, before) pairs [links], read
    from the newest, start at [head], each [before] is the next [after],
    and the oldest [before] is [first]. *)
Fixpoint is_chain (head : string) (links : list (string * string))
  (first : string) : Prop :=
  match links with
  | [] => False
  | (a, b) :: rest =>
      a = head /\
      match rest with
      | [] => b = first
      | _ :: _ => is_chain b rest first
      end
  end.

(** The check-runs the tracker may carry forward: the reserved name,
    published by this integration. *)
Definition carried (c : CheckRun) : bool :=
  String.eqb (name c) SUMMARY_NAME && Z.eqb (app_id c) INTEGRATION_ID.

(** The sources the mapping keeps under the key [k]. *)
Definition synchronize_to (k : string) (s : Source) : bool :=
  is_synchronize s && bool_decide (after (data s) = Some k).

(** The (after, before) pair of an item of the mapping's generator. *)
Definition link_of (item : string * Data) : string * option string :=
  (item.1, before item.2).

(** The (after, before) pairs of the batch's synchronize events. *)
Definition batch_links (ctxt : Context) : list (string * option string) :=
  link_of <$> synchronize_items (sources ctxt).

Definition with_before (l : string * string) : string * option string :=
  (l.1, Some l.2).

(** What the tracker publishes when it carries a summary forward. *)
Definition republished (ctxt : Context) (previous_summary : CheckRun) : list Call :=
  [CheckApiSetCheckRun (head_sha (pull ctxt)) SUMMARY_NAME "completed" "success"
     {| title := output_title previous_summary;
        summary := output_summary previous_summary;
        annotations := None |};
   SaveLastSummaryHeadSha (head_sha (pull ctxt))].

(** The context [run] builds from its arguments. *)
Definition run_context (client : Client) (pull : Pull) (sub : Subscription)
  (batch : list Source) : Context :=
  {| client := client; pull := pull; subscription := sub;
     sources := List.filter (fun s => negb (is_issue_comment s)) batch |}.

(** The part of [run] before its gates: pending commands, then one
    hand-off per comment. *)
Definition commands_phase (ctxt : Context) (batch : list Source)
  : M World unit :=
  run_pending_commands_tasks ctxt;;;
  for_each (List.filter is_issue_comment batch) (handle_comment ctxt).

(** A call that hands rules to the evaluator. *)
Definition is_actions_handle (c : Call) : bool :=
  match c with
  | ActionsHandle _ => true
  | _ => false
  end.

(** [w'] comes after [w] with the same configuration and with calls
    added, none of them to the evaluator. *)
Definition extends (w w' : World) : Prop :=
  repo_config w' = repo_config w
  /\ exists delta,
       calls w' = calls w ++ delta
       /\ Forall (fun c => is_actions_handle c = false) delta.

Definition quiet {A} (m : M World A) : Prop :=
  forall w w', final (m w) = Some w' -> extends w w'.

End WithRules.

End Engine.

(** * Sample inputs *)

Module SubUtilsSamples.

Import SubUtils.

(** A small codec standing for JSON and the cipher: it keeps the active
    flag and the reason, and marks the ciphertext with a leading
    character. *)
Definition sample_dumps (sub : Subscription) : string :=
  (if subscription_active sub then "1" else "0") +:+ subscription_reason sub.

Definition sample_loads (s : string) : Subscription :=
  match s with
  | String c r =>
      {| tokens := ∅;
         subscription_active := Ascii.eqb c "1"%char;
         subscription_reason := r |}
  | EmptyString =>
      {| tokens := ∅; subscription_active := false; subscription_reason := "" |}
  end.

Definition sample_encrypt (s : string) : string := String "#"%char s.

Definition sample_decrypt (s : string) : string :=
  match s with
  | String _ r => r
  | EmptyString => ""
  end.

Definition sample_sub : Subscription :=
  {| tokens := ∅; subscription_active := true; subscription_reason := "paid" |}.

(** An empty cache at time 100, in front of a source that knows nobody. *)
Definition sample_world : World :=
  {| now := 100; redis := ∅;
     source := fun _ => HTTPNotFound "Organization or user not found";
     calls := [] |}.

End SubUtilsSamples.

Module EngineSamples.

Import Engine.

Definition sample_id : Z := 7.

Definition synchronize (b a : string) : Source :=
  {| event_type := "pull_request";
     data := {| action := "synchronize"; before := Some b; after := Some a;
                comment := None |} |}.

(** A synchronize event whose payload has [after] but no [before]. *)
Definition synchronize_without_before (a : string) : Source :=
  {| event_type := "pull_request";
     data := {| action := "synchronize"; before := None; after := Some a;
                comment := None |} |}.

Definition closed : Source :=
  {| event_type := "pull_request";
     data := {| action := "closed"; before := None; after := None;
                comment := None |} |}.

Definition sample_summary : CheckRun :=
  {| name := "Summary"; app_id := sample_id; conclusion := "success";
     output_title := "1 rule matches"; output_summary := "details" |}.

Definition sample_pull : Pull :=
  {| head_sha := "a"; base_ref := "feature"; default_branch := "main";
     repo_name := "repo"; private := false |}.

Definition private_pull : Pull :=
  {| head_sha := "a"; base_ref := "feature"; default_branch := "main";
     repo_name := "repo"; private := true |}.

Definition sample_client : Client :=
  {| permissions_need_to_be_updated := false |}.

Definition sample_sub : Subscription :=
  {| has_private_repository := true; reason := "" |}.

Definition lapsed_sub : Subscription :=
  {| has_private_repository := false; reason := "No subscription" |}.

Definition sample_context (srcs : list Source) : Context :=
  {| client := sample_client; pull := sample_pull;
     subscription := sample_sub; sources := srcs |}.

Definition sample_config : @config_result string :=
  ConfigFound ".mergify.yml" {| pull_request_rules := ["automerge"] |}.

Definition sample_defaults : list string := ["delete head branch"; "backports"].

(** A world in which only revision [sha] has a summary, with the pointer
    as given. *)
Definition world_with_summary_at (sha : string) (pointer : option string)
  : @World string :=
  {| check_runs := {[ sha := [sample_summary] ]};
     last_summary_head_sha := pointer;
     pull_files := [];
     repo_config := fun _ => sample_config;
     calls := [] |}.

(** The head went from [c] to [a], then to [b], then back to [a]; the
    events are in the order they happened. *)
Definition there_and_back : list Source :=
  [synchronize "c" "a"; synchronize "a" "b"; synchronize "b" "a"].

(** The same three changes as links, newest first: a chain from the head
    [a] down to [c]. *)
Definition there_and_back_links : list (string * string) :=
  [("a", "b"); ("b", "a"); ("a", "c")].

(** A batch that closes the pull request. *)
Definition closing : list Source := [closed].

(** The world after the pending commands were run and nothing else. *)
Definition after_commands (w : @World string) : @World string :=
  log RunPendingCommandsTasks w.

(** The head went from [c] to [b] and then to [a]. *)
Definition two_hops : list Source :=
  [synchronize "b" "a"; synchronize "c" "b"].

End EngineSamples.

(** * More sample inputs *)

Module MoreSamples.

(** A cache whose entry for account 42 is empty and has not expired. *)
Definition world_with_empty_entry : SubUtils.World :=
  {| SubUtils.now := 100;
     SubUtils.redis := {[ SubUtils.cache_key 42%N := ("", 200) ]};
     SubUtils.source := fun _ => SubUtils.HTTPNotFound "Organization or user not found";
     SubUtils.calls := [] |}.

Import Engine EngineSamples.

Definition config_file : File :=
  {| filename := ".mergify.yml";
     contents_url :=
       "https://api.github.com/repos/o/r/contents/.mergify.yml?ref=0a1b" |}.

Definition readme_file : File :=
  {| filename := "README.md";
     contents_url :=
       "https://api.github.com/repos/o/r/contents/README.md?ref=0a1b" |}.

Definition config_file_without_ref : File :=
  {| filename := ".mergify.yml";
     contents_url := "https://api.github.com/repos/o/r/contents/.mergify.yml" |}.

(** A pull request against the default branch. *)
Definition default_branch_pull : Pull :=
  {| head_sha := "a"; base_ref := "main"; default_branch := "main";
     repo_name := "repo"; private := false |}.

Definition default_branch_context : Context :=
  {| client := sample_client; pull := default_branch_pull;
     subscription := sample_sub; sources := [synchronize "b" "a"] |}.

Definition sample_error : InvalidRulesError :=
  {| error_message := "extra keys not allowed @ pull_request_rules";
     error_annotations := [] |}.

(** The configuration is valid on the default ref and invalid at every
    other ref. *)
Definition invalid_at_ref (ref : option string) : @config_result string :=
  match ref with
  | Some _ => ConfigInvalidRules sample_error
  | None => sample_config
  end.

(** The configuration is invalid everywhere. *)
Definition invalid_everywhere (ref : option string) : @config_result string :=
  ConfigInvalidRules sample_error.

Definition world_with_files (fs : list File)
  (config : option string -> @config_result string) : @World string :=
  {| check_runs := ∅;
     last_summary_head_sha := None;
     pull_files := fs;
     repo_config := config;
     calls := [] |}.

Definition opened : Source :=
  {| event_type := "pull_request";
     data := {| action := "opened"; before := None; after := None;
                comment := None |} |}.

Definition comment_event (b u : string) : Source :=
  {| event_type := "issue_comment";
     data := {| action := "created"; before := None; after := None;
                comment := Some {| body := b; user := u |} |} |}.

Definition two_comments : list Source :=
  [comment_event "@mergifyio refresh" "alice";
   comment_event "@mergifyio rebase" "bob"].

Definition stale_client : Client :=
  {| permissions_need_to_be_updated := true |}.

End MoreSamples.

(** * Notions for the further properties *)

Module Notions.

(** What the caller gets back, the final state left aside: a value or
    an exception. *)
Definition answer {S A} (o : outcome S A) : option (A + exn) :=
  match o with
  | Ok a _ => Some (inl a)
  | Raise e _ => Some (inr e)
  | OutOfFuel => None
  end.

(** [sep] occurs in [s]. *)
Definition occurs (sep s : string) : Prop :=
  exists pre post, s = pre +:+ sep +:+ post.

End Notions.

Module EngineNotions.

Import Engine.

Section WithRules.

Context {Rule : Type}.

(** Every call added by [m] satisfies [P]. *)
Definition emits {A} (P : @Call Rule -> Prop) (m : M (@World Rule) A) : Prop :=
  forall w w',
    final (m w) = Some w' ->
    exists delta, calls w' = calls w ++ delta /\ Forall P delta.

(** The world after a list of calls was logged and nothing else
    changed. *)
Definition logs (delta : list (@Call Rule)) (w : @World Rule) : @World Rule :=
  fold_left (fun w c => log c w) delta w.

(** The hand-off of one comment event to the command handler. *)
Definition handoff (s : Source) : option (@Call Rule) :=
  match comment (data s) with
  | Some c => Some (CommandsHandle (body c) (user c))
  | None => None
  end.

(** A changed file that is a configuration file. *)
Definition is_config_file (names : list string) (f : File) : bool :=
  existsb (String.eqb (filename f)) names.

(** The check-run calls [check_configuration_changes] makes for a
    configuration found valid and for one found invalid. *)
Definition config_valid_call (ctxt : @Context) : @Call Rule :=
  CheckApiSetCheckRun (head_sha (pull ctxt)) SUMMARY_NAME "completed" "success"
    {| title := "The new Mergify configuration is valid";
       summary := "This pull request must be merged manually because it modifies Mergify configuration";
       annotations := None |}.

Definition config_invalid_call (ctxt : @Context) (e : InvalidRulesError)
  : @Call Rule :=
  CheckApiSetCheckRun (head_sha (pull ctxt)) SUMMARY_NAME "completed" "failure"
    {| title := "The new Mergify configuration is invalid";
       summary := error_message e;
       annotations := Some (error_annotations e) |}.

(** The check-run calls of the gates of [run]. *)
Definition permissions_call (ctxt : @Context) : @Call Rule :=
  CheckApiSetCheckRun (head_sha (pull ctxt)) "Summary" "completed" "failure"
    {| title := "Required GitHub permissions are missing.";
       summary := "You can accept them at https://dashboard.mergify.io/";
       annotations := None |}.

Definition invalid_call (ctxt : @Context) (e : InvalidRulesError) : @Call Rule :=
  CheckApiSetCheckRun (head_sha (pull ctxt)) SUMMARY_NAME "completed" "failure"
    {| title := "The Mergify configuration is invalid";
       summary := error_message e;
       annotations := Some (error_annotations e) |}.

Definition disabled_call (ctxt : @Context) : @Call Rule :=
  CheckApiSetCheckRun (head_sha (pull ctxt)) SUMMARY_NAME "completed" "failure"
    {| title := "Mergify is disabled";
       summary := reason (subscription ctxt);
       annotations := None |}.

End WithRules.

End EngineNotions.

(** * Truthiness *)

Lemma truthy_true (s : string) : s <> "" -> truthy s = true.
Proof.
  intros Hs. unfold truthy.
  destruct (String.eqb_spec s ""); [contradiction | reflexivity].
Qed.

(** * Properties of the subscription cache *)

Module SubUtilsSpec.

Import SubUtils.

(** A hit and a miss of the cache, as [r_get] sees them. *)
Lemma r_get_fresh key value expires (w : World) :
  redis w !! key = Some (value, expires) ->
  now w < expires ->
  r_get key w = Ok (Some value) (log (redis_get key) w).
Proof.
  intros Hk Hlt. unfold r_get. rewrite Hk.
  destruct (decide (now w < expires)); [reflexivity | contradiction].
Qed.

Lemma r_get_expired key value expires (w : World) :
  redis w !! key = Some (value, expires) ->
  expires <= now w ->
  r_get key w = Ok None (log (redis_get key) w).
Proof.
  intros Hk Hle. unfold r_get. rewrite Hk.
  destruct (decide (now w < expires)); [lia | reflexivity].
Qed.

Section Codec.

Variable json_dumps : Subscription -> string.
Variable json_loads : string -> Subscription.
Variable encrypt : string -> string.
Variable decrypt : string -> string.

Abbreviation get_subscription :=
  (get_subscription json_dumps json_loads encrypt decrypt).
Abbreviation save_subscription_to_cache :=
  (save_subscription_to_cache json_dumps encrypt).
Abbreviation _retrieve_subscription_from_cache :=
  (_retrieve_subscription_from_cache json_loads decrypt).

(** Saving always succeeds and leaves the entry with 3600 to live. *)
Lemma save_outcome owner_id sub (w : World) :
  exists w1,
    save_subscription_to_cache owner_id sub w = Ok tt w1
    /\ now w1 = now w
    /\ source w1 = source w
    /\ redis w1 !! cache_key owner_id
       = Some (encrypt (json_dumps sub), now w + 3600)
    /\ calls w1
       = calls w ++ [redis_setex (cache_key owner_id) 3600
                       (encrypt (json_dumps sub))].
Proof.
  eexists. split; [reflexivity |]. cbn.
  repeat split; try reflexivity. apply lookup_insert_eq.
Qed.

(** What a miss does: the source is asked, and what it says decides. *)
Lemma get_subscription_miss owner_id (w : World) :
  r_get (cache_key owner_id) w = Ok None (log (redis_get (cache_key owner_id)) w) ->
  get_subscription owner_id w
  = (sub <- SubUtils._retrieve_subscription_from_db owner_id;;
     save_subscription_to_cache owner_id sub;;; ret sub)
      (log (redis_get (cache_key owner_id)) w).
Proof.
  intros Hget. unfold SubUtils.get_subscription,
    SubUtils._retrieve_subscription_from_cache, bind at 1 2. rewrite Hget.
  reflexivity.
Qed.

(** C8. Reading an account's subscription after it was saved, while
    less than 3600 time units have passed, gives back what was saved
    and the only call made is the cache read: the authoritative source
    is not asked.  Once 3600 time units have passed the read misses and
    the authoritative source is asked again, right after the cache
    read.  Decoding is assumed to invert encoding on the saved value,
    and the ciphertext to be non-empty. *)
Theorem get_after_save owner_id sub (w w1 : World) (dt : Z) :
  json_loads (decrypt (encrypt (json_dumps sub))) = sub ->
  encrypt (json_dumps sub) <> "" ->
  save_subscription_to_cache owner_id sub w = Ok tt w1 ->
  (0 <= dt < 3600 ->
     get_subscription owner_id (elapse dt w1)
     = Ok sub (log (redis_get (cache_key owner_id)) (elapse dt w1)))
  /\ (3600 <= dt ->
      exists w2 rest,
        final (get_subscription owner_id (elapse dt w1)) = Some w2
        /\ calls w2
           = calls w1
             ++ redis_get (cache_key owner_id) :: http_get owner_id :: rest).
Proof.
  intros Hround Hne Hsave.
  destruct (save_outcome owner_id sub w) as (w1' & Hs & Hnow & Hsrc & Hk & Hc).
  rewrite Hsave in Hs. injection Hs as <-.
  split; intros Hdt.
  - unfold SubUtils.get_subscription, SubUtils._retrieve_subscription_from_cache,
      bind.
    rewrite (r_get_fresh _ (encrypt (json_dumps sub)) (now w + 3600));
      [| exact Hk | cbn; lia].
    rewrite truthy_true by exact Hne. cbn. rewrite Hround. reflexivity.
  - rewrite get_subscription_miss.
    2:{ apply (r_get_expired _ (encrypt (json_dumps sub)) (now w + 3600));
          [exact Hk | cbn; lia]. }
    unfold SubUtils._retrieve_subscription_from_db, bind, client_get.
    destruct (source _ owner_id) as [body | message | e]; cbn;
      eexists; eexists; (split; [reflexivity |]); cbn;
      rewrite <- ?app_assoc; cbn; reflexivity.
Qed.

(** C9. On a cache miss, a not-found answer of the authoritative source
    gives an inactive subscription with no tokens and the reason of
    the answer; it is returned, not raised, after being written to the
    cache for 3600 time units, with the same call a found subscription
    is written with.  Any other failure of the fetch is raised to the
    caller and nothing is written to the cache. *)
Theorem get_subscription_on_miss owner_id (w : World) :
  r_get (cache_key owner_id) w
  = Ok None (log (redis_get (cache_key owner_id)) w) ->
  let key := cache_key owner_id in
  let stored sub := encrypt (json_dumps sub) in
  (forall message,
     source w owner_id = HTTPNotFound message ->
     let sub := {| tokens := ∅; subscription_active := false;
                   subscription_reason := message |} in
     exists w',
       get_subscription owner_id w = Ok sub w'
       /\ redis w' = <[key := (stored sub, now w + 3600)]> (redis w)
       /\ calls w'
          = calls w ++ [redis_get key; http_get owner_id;
                        redis_setex key 3600 (stored sub)])
  /\ (forall body,
        source w owner_id = Response body ->
        let sub := {| tokens := access_token <$> r_tokens body;
                      subscription_active := r_subscription_active body;
                      subscription_reason := r_subscription_reason body |} in
        exists w',
          get_subscription owner_id w = Ok sub w'
          /\ redis w' = <[key := (stored sub, now w + 3600)]> (redis w)
          /\ calls w'
             = calls w ++ [redis_get key; http_get owner_id;
                           redis_setex key 3600 (stored sub)])
  /\ (forall e,
        source w owner_id = HTTPFailure e ->
        exists w',
          get_subscription owner_id w = Raise e w'
          /\ redis w' = redis w
          /\ calls w' = calls w ++ [redis_get key; http_get owner_id]).
Proof.
  intros Hmiss key stored. rewrite (get_subscription_miss _ _ Hmiss).
  unfold SubUtils._retrieve_subscription_from_db, bind, client_get. cbn.
  repeat split.
  - intros message ->. cbn. eexists. split; [reflexivity |].
    cbn. rewrite <- !app_assoc. split; reflexivity.
  - intros body ->. cbn. eexists. split; [reflexivity |].
    cbn. rewrite <- !app_assoc. split; reflexivity.
  - intros e ->. cbn. eexists. split; [reflexivity |].
    cbn. rewrite <- !app_assoc. split; reflexivity.
Qed.

End Codec.

(** ** On sample inputs *)

Import SubUtilsSamples.

Abbreviation sample_get :=
  (get_subscription sample_dumps sample_loads sample_encrypt sample_decrypt).
Abbreviation sample_save := (save_subscription_to_cache sample_dumps sample_encrypt).

Lemma get_after_save_witness :
  exists w1,
    sample_save 42%N sample_sub sample_world = Ok tt w1
    /\ sample_get 42%N (elapse 3599 w1)
       = Ok sample_sub (log (redis_get (cache_key 42%N)) (elapse 3599 w1))
    /\ exists w2 rest,
         final (sample_get 42%N (elapse 3600 w1)) = Some w2
         /\ calls w2
            = calls w1 ++ redis_get (cache_key 42%N) :: http_get 42%N :: rest.
Proof.
  eexists. split; [reflexivity |].
  split.
  - refine (proj1 (get_after_save sample_dumps sample_loads sample_encrypt
                     sample_decrypt 42%N sample_sub sample_world _ 3599
                     _ _ _) _);
      [reflexivity | discriminate | reflexivity | lia].
  - refine (proj2 (get_after_save sample_dumps sample_loads sample_encrypt
                     sample_decrypt 42%N sample_sub sample_world _ 3600
                     _ _ _) _);
      [reflexivity | discriminate | reflexivity | lia].
Defined.

Lemma get_subscription_on_miss_witness :
  r_get (cache_key 42%N) sample_world
  = Ok None (log (redis_get (cache_key 42%N)) sample_world)
  /\ exists w',
       sample_get 42%N sample_world
       = Ok {| tokens := ∅; subscription_active := false;
               subscription_reason := "Organization or user not found" |} w'
       /\ redis w' !! cache_key 42%N
          = Some (sample_encrypt
                    (sample_dumps
                       {| tokens := ∅; subscription_active := false;
                          subscription_reason := "Organization or user not found" |}),
                  3700).
Proof.
  split; [reflexivity |].
  destruct (proj1 (get_subscription_on_miss sample_dumps sample_loads
                     sample_encrypt sample_decrypt 42%N sample_world eq_refl)
              "Organization or user not found" eq_refl)
    as (w' & Hget & Hredis & _).
  exists w'. split; [exact Hget |]. rewrite Hredis. apply lookup_insert_eq.
Defined.

End SubUtilsSpec.

(** * Properties of the engine *)

Module EngineSpec.

Import Engine.

Section Rules.

Context {Rule : Type}.
Variable INTEGRATION_ID : Z.
Variable DEFAULT_PULL_REQUEST_RULES : list Rule.
Variable MERGIFY_CONFIG_FILENAMES : list string.

Abbreviation World := (@World Rule).
Abbreviation get_summary_from_sha := (@get_summary_from_sha Rule INTEGRATION_ID).
Abbreviation walk_turn := (@walk_turn Rule INTEGRATION_ID).
Abbreviation walk := (@walk Rule INTEGRATION_ID).
Abbreviation reaches := (@reaches Rule INTEGRATION_ID).
Abbreviation get_summary_from_synchronize_event :=
  (@get_summary_from_synchronize_event Rule INTEGRATION_ID).
Abbreviation ensure_summary_on_head_sha :=
  (@ensure_summary_on_head_sha Rule INTEGRATION_ID).
Abbreviation set_check_run := (@set_check_run Rule INTEGRATION_ID).
Abbreviation check_configuration_changes :=
  (@check_configuration_changes Rule INTEGRATION_ID MERGIFY_CONFIG_FILENAMES).
Abbreviation carried := (@carried INTEGRATION_ID).
Abbreviation run :=
  (@run Rule INTEGRATION_ID DEFAULT_PULL_REQUEST_RULES MERGIFY_CONFIG_FILENAMES).

(** ** The summary of a revision *)

Lemma filter_filter_head {A} (p q : A -> bool) (l : list A) :
  match List.filter q (List.filter p l) with
  | c :: _ => Some c
  | [] => None
  end = List.find (fun c => p c && q c) l.
Proof.
  induction l as [| c l IH]; [reflexivity |]. cbn.
  destruct (p c); cbn; [| exact IH].
  destruct (q c); cbn; [reflexivity | exact IH].
Qed.

(** C10. The summary of a revision is the first check-run of that revision
    that has the reserved name and was published by this integration, and
    there is none when no check-run of the revision is both. *)
Theorem get_summary_from_sha_first_own (w : World) (sha : string) :
  get_summary_from_sha w sha
  = List.find carried (default [] (check_runs w !! sha))
  /\ forall c,
       get_summary_from_sha w sha = Some c ->
       name c = SUMMARY_NAME /\ app_id c = INTEGRATION_ID
       /\ In c (default [] (check_runs w !! sha)).
Proof.
  assert (Hfind : get_summary_from_sha w sha
                  = List.find carried (default [] (check_runs w !! sha))).
  { unfold Engine.get_summary_from_sha, get_checks_for_ref.
    apply filter_filter_head. }
  split; [exact Hfind |].
  intros c Hc. rewrite Hfind in Hc. apply find_some in Hc as [Hin Hcar].
  unfold Engine.carried in Hcar. apply andb_prop in Hcar as [Hn Ha].
  apply String.eqb_eq in Hn. apply Z.eqb_eq in Ha. auto.
Qed.

(** ** The mapping of the walk *)

Lemma dict_snoc {V} (items : list (string * V)) (kv : string * V) :
  dict (items ++ [kv]) = <[kv.1 := kv.2]> (dict items).
Proof. unfold dict. rewrite foldl_app. reflexivity. Qed.

Lemma dict_lookup {V} (items : list (string * V)) (k : string) :
  dict items !! k
  = snd <$> last (List.filter (fun it => bool_decide (it.1 = k)) items).
Proof.
  induction items as [| kv items IH] using rev_ind; [reflexivity |].
  rewrite dict_snoc, List.filter_app. cbn.
  destruct (bool_decide_reflect (kv.1 = k)) as [Heq | Hne].
  - rewrite last_snoc. subst k. rewrite lookup_insert_eq. reflexivity.
  - rewrite app_nil_r, lookup_insert_ne by exact Hne. exact IH.
Qed.

Lemma synchronize_items_snoc (srcs : list Source) (s : Source) :
  synchronize_items (srcs ++ [s])
  = synchronize_items srcs
    ++ match synchronize_item s with Some it => [it] | None => [] end.
Proof.
  unfold synchronize_items. rewrite omap_app. cbn.
  destruct (synchronize_item s); reflexivity.
Qed.

Lemma synchronize_item_Some (s : Source) (it : string * Data) :
  synchronize_item s = Some it
  <-> is_synchronize s = true /\ after (data s) = Some it.1 /\ it.2 = data s.
Proof.
  unfold synchronize_item. destruct it as [k d]. cbn.
  destruct (is_synchronize s); [| split; [discriminate | intros [[=] _]]].
  destruct (after (data s)) as [a |];
    [| split; [discriminate | intros (_ & [=] & _)]].
  split.
  - intros [= <- <-]. auto.
  - intros (_ & [= <-] & ->). reflexivity.
Qed.

(** C3 (as the code has it). Under a revision, the mapping of the walk
    holds the data of the last event of the batch that is a pull_request
    event with action synchronize and has that revision as its [after]
    entry, and it holds nothing under a revision no such event has. *)
Theorem synchronize_events_lookup (ctxt : Context) (k : string) :
  synchronize_events ctxt !! k
  = data <$> last (List.filter (synchronize_to k) (sources ctxt)).
Proof.
  unfold synchronize_events. generalize (sources ctxt) as srcs.
  induction srcs as [| s srcs IH] using rev_ind; [reflexivity |].
  rewrite synchronize_items_snoc, List.filter_app. cbn.
  unfold synchronize_to at 2.
  destruct (synchronize_item s) as [it |] eqn:Hit.
  - apply synchronize_item_Some in Hit as (Hs & Ha & Hd).
    rewrite dict_snoc, Hs, Ha. cbn.
    destruct (bool_decide_reflect (Some it.1 = Some k)) as [[= Heq] | Hne].
    + rewrite last_snoc, Heq, lookup_insert_eq, Hd. reflexivity.
    + rewrite app_nil_r, lookup_insert_ne by congruence. exact IH.
  - rewrite !app_nil_r.
    assert (Hf : is_synchronize s && bool_decide (after (data s) = Some k) = false).
    { unfold synchronize_item in Hit. destruct (is_synchronize s); [| reflexivity].
      destruct (after (data s)); [discriminate |]. reflexivity. }
    rewrite Hf, app_nil_r. exact IH.
Qed.

(** ** ensure_summary_on_head_sha *)

Abbreviation has_summary ctxt w :=
  (existsb (fun check => String.eqb (name check) SUMMARY_NAME)
     (pull_engine_check_runs ctxt w)).

(** C4. When the check-runs of the current head already hold one with the
    reserved name, ensuring the summary returns at once and leaves the
    world, the log of calls included, as it was; and so does ensuring it
    twice. *)
Theorem ensure_noop_when_summary_on_head (ctxt : Context) (w : World) :
  has_summary ctxt w = true ->
  ensure_summary_on_head_sha ctxt w = Ok tt w
  /\ (ensure_summary_on_head_sha ctxt;;; ensure_summary_on_head_sha ctxt) w
     = Ok tt w.
Proof.
  intros Hs.
  assert (H1 : ensure_summary_on_head_sha ctxt w = Ok tt w).
  { unfold Engine.ensure_summary_on_head_sha, bind, gets. rewrite Hs. reflexivity. }
  split; [exact H1 |]. unfold bind at 1. rewrite H1. exact H1.
Qed.

(** C2. When the head has no summary and the persisted pointer is there
    but the pointed revision has no summary, nothing is published and
    nothing saved: the world stays as it was, whatever synchronize events
    the batch holds. *)
Theorem pointer_without_summary_no_fallback (ctxt : Context) (w : World)
  (sha : string) :
  has_summary ctxt w = false ->
  last_summary_head_sha w = Some sha ->
  sha <> "" ->
  get_summary_from_sha w sha = None ->
  ensure_summary_on_head_sha ctxt w = Ok tt w.
Proof.
  intros Hs Hp Hne Hnone.
  unfold Engine.ensure_summary_on_head_sha, bind, gets, get_last_summary_head_sha, gets.
  rewrite Hs, Hp, truthy_true by exact Hne. cbn. rewrite Hnone. reflexivity.
Qed.

(** ** The walk over the synchronize events *)

Lemma walk_turn_Continue (w : World) (events : gmap string Data) after_sha
  events' after_sha' :
  walk_turn w events after_sha = Continue events' after_sha' ->
  exists d, events !! after_sha = Some d /\ before d = Some after_sha'
            /\ events' = delete after_sha events
            /\ get_summary_from_sha w after_sha' = None.
Proof.
  unfold Engine.walk_turn. destruct (events !! after_sha) as [d |]; [| discriminate].
  destruct (before d) as [b |] eqn:Hbefore; [| discriminate].
  destruct (Engine.get_summary_from_sha _ w b) eqn:Hb; [discriminate |].
  intros [= <- <-]. exists d. auto.
Qed.

Lemma walk_turn_size (w : World) (events : gmap string Data) after_sha
  events' after_sha' :
  walk_turn w events after_sha = Continue events' after_sha' ->
  size events = S (size events').
Proof.
  intros (d & Hd & _ & -> & _)%walk_turn_Continue.
  rewrite map_size_delete, Hd. cbn.
  assert (size events <> 0%nat); [| lia].
  apply map_size_non_empty_iff. intros ->. rewrite lookup_empty in Hd. discriminate.
Qed.

(** With a budget of at least the size of the mapping the loop is never
    cut, and it takes at most that many turns. *)
Lemma walk_within_budget (w : World) (fuel : nat) :
  forall (events : gmap string Data) after_sha,
    (size events <= fuel)%nat ->
    (walk fuel w events after_sha).1 <> Cut
    /\ ((walk fuel w events after_sha).2 <= size events)%nat.
Proof.
  induction fuel as [| fuel IH]; intros events after_sha Hsize; cbn.
  - destruct (decide (events = ∅)) as [-> | Hne]; cbn; [split; [discriminate | lia] |].
    apply map_size_non_empty_iff in Hne. lia.
  - destruct (decide (events = ∅)) as [-> | Hne]; cbn; [split; [discriminate | lia] |].
    apply map_size_non_empty_iff in Hne.
    destruct (Engine.walk_turn _ w events after_sha) as [events' a' | c | | e] eqn:Hturn; cbn;
      try (split; [discriminate | lia]).
    pose proof (walk_turn_size _ _ _ _ _ Hturn) as Hs.
    destruct (IH events' a') as [Hcut Hn]; [lia |]. split; [exact Hcut | lia].
Qed.

(** The way the loop ends does not depend on the budget, once it is
    enough. *)
Lemma walk_budget_irrelevant (w : World) (fuel : nat) :
  forall fuel' (events : gmap string Data) after_sha,
    (size events <= fuel)%nat -> (size events <= fuel')%nat ->
    walk fuel w events after_sha = walk fuel' w events after_sha.
Proof.
  induction fuel as [| fuel IH]; intros fuel' events after_sha Hsize Hsize'.
  - assert (events = ∅) as -> by (apply map_size_empty_inv; lia).
    destruct fuel'; reflexivity.
  - destruct fuel' as [| fuel'].
    + assert (events = ∅) as -> by (apply map_size_empty_inv; lia). reflexivity.
    + cbn. destruct (decide (events = ∅)); [reflexivity |].
      destruct (Engine.walk_turn _ w events after_sha) as [events' a' | c | | e] eqn:Hturn;
        try reflexivity.
      pose proof (walk_turn_size _ _ _ _ _ Hturn) as Hs.
      rewrite (IH fuel' events' a') by lia. reflexivity.
Qed.

Lemma walk_unfold_Continue (w : World) (events : gmap string Data) after_sha
  events' after_sha' :
  events <> ∅ ->
  walk_turn w events after_sha = Continue events' after_sha' ->
  (walk (size events) w events after_sha).1
  = (walk (size events') w events' after_sha').1.
Proof.
  intros Hne Hturn. rewrite (walk_turn_size _ _ _ _ _ Hturn). cbn.
  destruct (decide (events = ∅)); [contradiction |]. rewrite Hturn. reflexivity.
Qed.

Lemma reaches_same_end (w : World) st st' :
  reaches w st st' ->
  (walk (size st.1) w st.1 st.2).1 = (walk (size st'.1) w st'.1 st'.2).1.
Proof.
  induction 1 as [st | events a events' a' st Hne Hturn _ IH]; [reflexivity |].
  cbn in *. rewrite <- IH. apply walk_unfold_Continue; assumption.
Qed.

Lemma walk_at_gap (w : World) (events : gmap string Data) after_sha :
  events !! after_sha = None ->
  (walk (size events) w events after_sha).1 = Gap
  \/ (walk (size events) w events after_sha).1 = Exhausted.
Proof.
  intros Hnone. destruct (size events) as [| n] eqn:Hsize; cbn.
  - apply map_size_empty_inv in Hsize as ->. right.
    destruct (decide (∅ = ∅)); [reflexivity | contradiction].
  - destruct (decide (events = ∅)); [right; reflexivity |].
    unfold Engine.walk_turn. rewrite Hnone. left. reflexivity.
Qed.

Lemma dict_size {V} (items : list (string * V)) :
  (size (dict items) <= length items)%nat.
Proof.
  induction items as [| kv items IH] using rev_ind; [cbn; rewrite map_size_empty; lia |].
  rewrite dict_snoc, length_app. cbn.
  pose proof (map_size_insert kv.1 kv.2 (dict items)) as Hs.
  destruct (dict items !! kv.1); cbn in Hs; lia.
Qed.

Lemma synchronize_items_length (srcs : list Source) :
  (length (synchronize_items srcs) <= length (List.filter is_synchronize srcs))%nat.
Proof.
  induction srcs as [| s srcs IH]; [reflexivity |].
  change (synchronize_items (s :: srcs))
    with (match synchronize_item s with
          | Some it => it :: synchronize_items srcs
          | None => synchronize_items srcs
          end).
  cbn [List.filter]. unfold synchronize_item.
  destruct (is_synchronize s); [| exact IH].
  destruct (after (data s)); cbn [length]; lia.
Qed.

(** C5. The walk is never cut short by its budget: it ends, and in at most
    as many turns as the batch has synchronize events; a turn that goes on
    takes one entry out of the mapping; and from any state the walk comes
    to in which the current revision is not a key of the mapping, it ends
    with no summary and no exception, leaving the world as it was. *)
Theorem walk_bounded_and_silent_at_gap (ctxt : Context) (w : World) :
  (walk (size (synchronize_events ctxt)) w (synchronize_events ctxt)
     (head_sha (pull ctxt))).1 <> Cut
  /\ ((walk (size (synchronize_events ctxt)) w (synchronize_events ctxt)
         (head_sha (pull ctxt))).2
      <= length (List.filter is_synchronize (sources ctxt)))%nat
  /\ (forall events after_sha events' after_sha',
        walk_turn w events after_sha = Continue events' after_sha' ->
        events' = delete after_sha events /\ size events = S (size events'))
  /\ (forall events after_sha,
        reaches w (synchronize_events ctxt, head_sha (pull ctxt))
          (events, after_sha) ->
        events !! after_sha = None ->
        get_summary_from_synchronize_event ctxt w = Ok None w).
Proof.
  destruct (walk_within_budget w _ (synchronize_events ctxt)
              (head_sha (pull ctxt)) (le_n _)) as [Hcut Hn].
  split; [exact Hcut |]. split.
  { etransitivity; [exact Hn |]. unfold synchronize_events.
    etransitivity; [apply dict_size | apply synchronize_items_length]. }
  split.
  { intros events a events' a' Hturn. split.
    - apply walk_turn_Continue in Hturn as (d & _ & _ & -> & _). reflexivity.
    - eapply walk_turn_size, Hturn. }
  intros events a Hreach Hnone.
  apply reaches_same_end in Hreach. cbn in Hreach.
  unfold Engine.get_summary_from_synchronize_event. rewrite Hreach.
  destruct (walk_at_gap w events a Hnone) as [-> | ->]; reflexivity.
Qed.

(** ** Republishing along a chain *)

Lemma NoDup_fst_functional {A B} (l : list (A * B)) a b1 b2 :
  NoDup (l.*1) -> (a, b1) ∈ l -> (a, b2) ∈ l -> b1 = b2.
Proof.
  induction l as [| [a' b'] l IH]; cbn; intros Hnd H1 H2.
  - inversion H1.
  - apply NoDup_cons in Hnd as [Hnotin Hnd].
    apply elem_of_cons in H1 as [[= -> ->] | H1];
      apply elem_of_cons in H2 as [[= ->] | H2]; auto.
    + subst. exfalso. apply Hnotin. apply list_elem_of_fmap. exists (a', b2). auto.
    + exfalso. apply Hnotin. apply list_elem_of_fmap. exists (a', b1). auto.
Qed.

Lemma last_filter_elem {A} (p : A -> bool) (l : list A) x :
  x ∈ l -> p x = true ->
  exists y, last (List.filter p l) = Some y /\ y ∈ l /\ p y = true.
Proof.
  intros Hin Hp.
  destruct (last (List.filter p l)) as [y |] eqn:Hlast.
  - exists y. split; [reflexivity |].
    apply last_Some_elem_of, list_elem_of_In, filter_In in Hlast as [Hy Hpy].
    split; [apply list_elem_of_In, Hy | exact Hpy].
  - apply last_None in Hlast.
    assert (Hx : In x (List.filter p l)).
    { apply filter_In. split; [apply list_elem_of_In, Hin | exact Hp]. }
    rewrite Hlast in Hx. destruct Hx.
Qed.

(** Each link of a chain with distinct after-revisions is found in the
    mapping, under its after-revision, with its before-revision. *)
Lemma chain_link_in_mapping (ctxt : Context) (links : list (string * string)) :
  (forall l, l ∈ batch_links ctxt <-> l ∈ with_before <$> links) ->
  NoDup (links.*1) ->
  forall a b, (a, b) ∈ links ->
    exists d, synchronize_events ctxt !! a = Some d /\ before d = Some b.
Proof.
  intros Hsame Hnd a b Hab.
  assert (Hin : (a, Some b) ∈ batch_links ctxt).
  { apply Hsame, list_elem_of_fmap. exists (a, b). auto. }
  apply list_elem_of_fmap in Hin as (it & Hit & Hitin).
  unfold synchronize_events. rewrite dict_lookup.
  destruct (last_filter_elem (fun it => bool_decide (it.1 = a)) _ it Hitin)
    as (it' & -> & Hin' & Hkey).
  { injection Hit as -> _. apply bool_decide_eq_true. reflexivity. }
  apply bool_decide_eq_true in Hkey. exists it'.2. split; [reflexivity |].
  assert (Hl : link_of it' ∈ with_before <$> links).
  { apply Hsame, list_elem_of_fmap. exists it'. auto. }
  apply list_elem_of_fmap in Hl as ([a' b'] & Heq & Hin'').
  unfold link_of, with_before in Heq. cbn in Heq. injection Heq as Ha Hb.
  rewrite Hb. f_equal. eapply NoDup_fst_functional; [exact Hnd | | exact Hab].
  rewrite <- Hkey, Ha. exact Hin''.
Qed.

(** The walk along a chain stops at the summary of its oldest revision. *)
Lemma walk_along_chain (w : World) (first : string) (s : CheckRun) :
  get_summary_from_sha w first = Some s ->
  (forall sha, sha <> first -> get_summary_from_sha w sha = None) ->
  forall (links : list (string * string)) head (events : gmap string Data) fuel,
    is_chain head links first ->
    NoDup (links.*1) ->
    (forall a b, (a, b) ∈ links ->
       exists d, events !! a = Some d /\ before d = Some b) ->
    (size events <= fuel)%nat ->
    (walk fuel w events head).1 = Found s.
Proof.
  intros Hs Honly links.
  induction links as [| [a b] rest IH]; intros head events fuel Hchain Hnd Hin Hsize;
    [destruct Hchain |].
  destruct Hchain as [-> Hrest].
  destruct (Hin head b) as (d & Hd & Hb); [left |].
  assert (Hne : events <> ∅).
  { intros ->. rewrite lookup_empty in Hd. discriminate. }
  destruct fuel as [| fuel].
  { apply map_size_non_empty_iff in Hne. lia. }
  cbn. destruct (decide (events = ∅)); [contradiction |].
  unfold Engine.walk_turn. rewrite Hd, Hb.
  destruct (decide (b = first)) as [-> | Hbf].
  { rewrite Hs. reflexivity. }
  rewrite (Honly b Hbf). cbn.
  rewrite fmap_cons in Hnd. apply NoDup_cons in Hnd as [Hnotin Hnd].
  destruct rest as [| l rest']; [contradiction |].
  apply IH; [exact Hrest | exact Hnd | |].
  - intros a' b' Hab'. destruct (Hin a' b') as (d' & Hd' & Hb'); [right; exact Hab' |].
    exists d'. split; [| exact Hb'].
    rewrite lookup_delete_ne; [exact Hd' |].
    intros <-. apply Hnotin. apply list_elem_of_fmap. exists (head, b'). auto.
  - rewrite map_size_delete, Hd. cbn. lia.
Qed.

(** C1 (as the code has it). When the head has no summary and there is no
    persisted pointer, and the batch's synchronize events are the links of
    a chain that starts at the head and whose after-revisions are pairwise
    distinct, and only the oldest before-revision of the chain has a
    summary, then that summary is published on the head as a success with
    its title and body, and the pointer is saved as the head. *)
Theorem chain_summary_republished (ctxt : Context) (w : World)
  (links : list (string * string)) (first : string) (s : CheckRun) :
  has_summary ctxt w = false ->
  last_summary_head_sha w = None ->
  (forall l, l ∈ batch_links ctxt <-> l ∈ with_before <$> links) ->
  is_chain (head_sha (pull ctxt)) links first ->
  NoDup (links.*1) ->
  get_summary_from_sha w first = Some s ->
  (forall sha, sha <> first -> get_summary_from_sha w sha = None) ->
  exists w',
    ensure_summary_on_head_sha ctxt w = Ok tt w'
    /\ calls w' = calls w ++ republished ctxt s
    /\ last_summary_head_sha w' = Some (head_sha (pull ctxt)).
Proof.
  intros Hhead Hptr Hsame Hchain Hnd Hs Honly.
  pose proof (walk_along_chain w first s Hs Honly links (head_sha (pull ctxt))
                (synchronize_events ctxt) (size (synchronize_events ctxt))
                Hchain Hnd (chain_link_in_mapping ctxt links Hsame Hnd) (le_n _))
    as Hwalk.
  unfold Engine.ensure_summary_on_head_sha, bind, gets, get_last_summary_head_sha, gets.
  rewrite Hhead, Hptr.
  unfold Engine.get_summary_from_synchronize_event. rewrite Hwalk.
  eexists. split; [reflexivity |]. cbn. split; [| reflexivity].
  rewrite <- app_assoc. reflexivity.
Qed.

(** ** run *)

Abbreviation extends := (@extends Rule).
Abbreviation quiet := (@quiet Rule).

Lemma final_bind {A B} (m : M World A) (k : A -> M World B) (w w' : World) :
  final (bind m k w) = Some w' ->
  (exists a w1, m w = Ok a w1 /\ final (k a w1) = Some w')
  \/ (exists e, m w = Raise e w').
Proof.
  unfold bind. destruct (m w) as [a w1 | e w1 |]; cbn.
  - intros H. left. eauto.
  - intros [= ->]. right. eauto.
  - discriminate.
Qed.

Lemma extends_refl (w : World) : extends w w.
Proof.
  split; [reflexivity |]. exists []. rewrite app_nil_r. split; [reflexivity | constructor].
Qed.

Lemma extends_trans (w1 w2 w3 : World) :
  extends w1 w2 -> extends w2 w3 -> extends w1 w3.
Proof.
  intros [Hc1 (d1 & Hd1 & Hf1)] [Hc2 (d2 & Hd2 & Hf2)]. split; [congruence |].
  exists (d1 ++ d2). rewrite Hd2, Hd1, app_assoc. split; [reflexivity |].
  apply Forall_app. auto.
Qed.

Lemma extends_log (w : World) (c : Call) :
  is_actions_handle c = false -> extends w (log c w).
Proof.
  intros Hc. split; [reflexivity |]. exists [c]. split; [reflexivity |].
  constructor; [exact Hc | constructor].
Qed.

Create HintDb quiet discriminated.

Lemma quiet_ret {A} (a : A) : quiet (ret a).
Proof. intros w w' [= <-]. apply extends_refl. Qed.

Lemma quiet_raise {A} (e : exn) : quiet (@raise World A e).
Proof. intros w w' [= <-]. apply extends_refl. Qed.

Lemma quiet_gets {A} (f : World -> A) : quiet (gets f).
Proof. intros w w' [= <-]. apply extends_refl. Qed.

Lemma quiet_bind {A B} (m : M World A) (k : A -> M World B) :
  quiet m -> (forall a, quiet (k a)) -> quiet (bind m k).
Proof.
  intros Hm Hk w w' [(a & w1 & Hmw & Hkw) | (e & Hmw)]%final_bind.
  - eapply extends_trans; [apply Hm; rewrite Hmw; reflexivity | eapply Hk, Hkw].
  - apply Hm. rewrite Hmw. reflexivity.
Qed.

Lemma quiet_set_check_run ctxt n st concl output :
  quiet (set_check_run ctxt n st concl output).
Proof.
  intros w w' [= <-]. split; [reflexivity |]. eexists [_]. split; [reflexivity |].
  constructor; [reflexivity | constructor].
Qed.

Lemma quiet_save_last_summary_head_sha ctxt :
  quiet (@save_last_summary_head_sha Rule ctxt).
Proof.
  intros w w' [= <-]. split; [reflexivity |]. eexists [_]. split; [reflexivity |].
  constructor; [reflexivity | constructor].
Qed.

Lemma quiet_delete_last_summary_head_sha ctxt :
  quiet (@delete_last_summary_head_sha Rule ctxt).
Proof.
  intros w w' [= <-]. split; [reflexivity |]. eexists [_]. split; [reflexivity |].
  constructor; [reflexivity | constructor].
Qed.

Lemma quiet_run_pending_commands_tasks ctxt :
  quiet (@run_pending_commands_tasks Rule ctxt).
Proof. intros w w' [= <-]. apply extends_log. reflexivity. Qed.

Lemma quiet_handle_comment ctxt s : quiet (@handle_comment Rule ctxt s).
Proof.
  unfold handle_comment. destruct (comment (data s)); [| apply quiet_raise].
  intros w w' [= <-]. apply extends_log. reflexivity.
Qed.

Lemma quiet_for_each {A} (l : list A) (f : A -> M World unit) :
  (forall x, quiet (f x)) -> quiet (for_each l f).
Proof.
  intros Hf. induction l as [| x l IH]; cbn; [apply quiet_ret |].
  apply quiet_bind; auto.
Qed.

Lemma quiet_get_mergify_config ref : quiet (@get_mergify_config Rule ref).
Proof. apply quiet_gets. Qed.

Hint Resolve quiet_ret quiet_raise quiet_gets quiet_set_check_run
  quiet_save_last_summary_head_sha quiet_delete_last_summary_head_sha
  quiet_run_pending_commands_tasks quiet_handle_comment
  quiet_get_mergify_config : quiet.

Ltac quiet_step :=
  first
    [ apply quiet_bind; [| intros ?]
    | apply quiet_for_each; intros ?
    | solve [auto with quiet]
    | match goal with
      | |- quiet (if ?b then _ else _) => destruct b
      | |- quiet (match ?x with _ => _ end) => destruct x
      end ].

Lemma quiet_config_ref fs ref :
  quiet (@config_ref Rule MERGIFY_CONFIG_FILENAMES fs ref).
Proof.
  revert ref. induction fs as [| f fs IH]; intros ref; cbn; [apply quiet_ret |].
  repeat quiet_step; apply IH.
Qed.

Lemma quiet_check_configuration_changes ctxt :
  quiet (check_configuration_changes ctxt).
Proof.
  unfold Engine.check_configuration_changes.
  repeat first [apply quiet_config_ref | quiet_step].
Qed.

Lemma quiet_get_summary_from_synchronize_event ctxt :
  quiet (get_summary_from_synchronize_event ctxt).
Proof.
  intros w w'. unfold Engine.get_summary_from_synchronize_event.
  destruct (_.1); cbn; intros [= <-]; apply extends_refl.
Qed.

Lemma quiet_ensure_summary_on_head_sha ctxt :
  quiet (ensure_summary_on_head_sha ctxt).
Proof.
  unfold Engine.ensure_summary_on_head_sha, get_last_summary_head_sha.
  repeat first [apply quiet_get_summary_from_synchronize_event | quiet_step].
Qed.

Lemma quiet_commands_phase ctxt batch : quiet (@commands_phase Rule ctxt batch).
Proof. unfold commands_phase. repeat quiet_step. Qed.

Lemma quiet_Ok {A} (m : M World A) (w w1 : World) (a : A) :
  quiet m -> m w = Ok a w1 -> extends w w1.
Proof. intros Hq Hm. apply Hq. rewrite Hm. reflexivity. Qed.

Lemma quiet_Raise {A} (m : M World A) (w w1 : World) (e : exn) :
  quiet m -> m w = Raise e w1 -> extends w w1.
Proof. intros Hq Hm. apply Hq. rewrite Hm. reflexivity. Qed.

(** One step of a run: what was done so far is quiet, and so is the next
    action; either it raised, or the run goes on after it. *)
Ltac run_step Hext Hfin Q :=
  let a := fresh "a" in
  let w1 := fresh "w" in
  let e := fresh "e" in
  let Hm := fresh "Hm" in
  apply final_bind in Hfin as [(a & w1 & Hm & Hfin) | (e & Hm)];
  [ apply (quiet_Ok _ _ _ _ Q) in Hm;
    apply (extends_trans _ _ _ Hext) in Hm;
    clear Hext; rename Hm into Hext
  | left; apply (quiet_Raise _ _ _ _ Q) in Hm;
    exact (extends_trans _ _ _ Hext Hm) ].

(** Every run either never reaches the evaluator, or ends by handing it
    the repository's rules followed by the baseline rules. *)
Lemma run_shape client pull sub batch (w w' : World) :
  final (run client pull sub batch w) = Some w' ->
  extends w w'
  \/ exists w1 fn cfg,
       extends w w1
       /\ repo_config w None = ConfigFound fn cfg
       /\ w' = log (ActionsHandle (pull_request_rules cfg
                                   ++ DEFAULT_PULL_REQUEST_RULES)) w1.
Proof.
  unfold Engine.run. intros Hfin.
  pose proof (extends_refl w) as Hext.
  run_step Hext Hfin (quiet_run_pending_commands_tasks
                        (run_context client pull sub batch)).
  run_step Hext Hfin (quiet_for_each (List.filter is_issue_comment batch) _
                        (quiet_handle_comment (run_context client pull sub batch))).
  cbn [sources] in Hfin.
  destruct (List.filter _ batch) eqn:Hsrc in Hfin.
  { left. injection Hfin as <-. exact Hext. }
  destruct (permissions_need_to_be_updated client).
  { left. eapply extends_trans; [exact Hext |].
    eapply quiet_set_check_run, Hfin. }
  run_step Hext Hfin (quiet_check_configuration_changes
                        (run_context client pull sub batch)).
  destruct a1.
  { left. injection Hfin as <-. exact Hext. }
  unfold bind at 1, get_mergify_config, gets at 1 in Hfin.
  destruct (repo_config w2 None) as [fn cfg | | err] eqn:Hcfg.
  - assert (Hcfg' : repo_config w None = ConfigFound fn cfg).
    { destruct Hext as [<- _]. exact Hcfg. }
    destruct (private pull && negb (has_private_repository sub)).
    { left. eapply extends_trans; [exact Hext |].
      eapply quiet_set_check_run, Hfin. }
    run_step Hext Hfin (quiet_ensure_summary_on_head_sha
                          {| client := client; pull := pull; subscription := sub;
                             sources := s :: l |}).
    apply final_bind in Hfin as [(u & w4 & Hm & Hfin) | (e & Hm)].
    + right. exists w4, fn, cfg. split; [| split].
      * eapply extends_trans; [exact Hext |].
        destruct (existsb _ _) in Hm;
          [eapply quiet_Ok, Hm; apply quiet_delete_last_summary_head_sha
          | eapply quiet_Ok, Hm; apply quiet_ret].
      * exact Hcfg'.
      * injection Hfin as <-. reflexivity.
    + left. eapply extends_trans; [exact Hext |].
      destruct (existsb _ _) in Hm;
        [eapply quiet_Raise, Hm; apply quiet_delete_last_summary_head_sha
        | eapply quiet_Raise, Hm; apply quiet_ret].
  - left. injection Hfin as <-. exact Hext.
  - destruct (existsb _ _) in Hfin.
    + left. eapply extends_trans; [exact Hext |].
      eapply quiet_set_check_run, Hfin.
    + left. injection Hfin as <-. exact Hext.
Qed.

(** C6. Whenever a run hands a rule list to the evaluator, the repository
    has a valid configuration and the list is the repository's rules
    followed by the baseline rules: its length is the sum of the two
    counts, its front is the repository's rules in their order and its
    tail the baseline rules in theirs. *)
Theorem merged_rules_passed_to_evaluator client pull sub batch (w w' : World)
  (delta : list Call) (rules : list Rule) :
  final (run client pull sub batch w) = Some w' ->
  calls w' = calls w ++ delta ->
  In (ActionsHandle rules) delta ->
  exists fn cfg,
    repo_config w None = ConfigFound fn cfg
    /\ rules = pull_request_rules cfg ++ DEFAULT_PULL_REQUEST_RULES
    /\ length rules
       = (length (pull_request_rules cfg)
          + length DEFAULT_PULL_REQUEST_RULES)%nat
    /\ take (length (pull_request_rules cfg)) rules = pull_request_rules cfg
    /\ drop (length (pull_request_rules cfg)) rules
       = DEFAULT_PULL_REQUEST_RULES.
Proof.
  intros Hfin Hcalls Hin.
  assert (Hquiet : forall d, Forall (fun c => is_actions_handle c = false) d ->
                             In (ActionsHandle rules) d -> False).
  { intros d Hall Hd. rewrite Forall_forall in Hall.
    apply list_elem_of_In, Hall in Hd. discriminate. }
  destruct (run_shape _ _ _ _ _ _ Hfin)
    as [[_ (d & Hd & Hall)] | (w1 & fn & cfg & [_ (d & Hd & Hall)] & Hcfg & ->)].
  - rewrite Hd in Hcalls. apply app_inv_head in Hcalls as <-.
    destruct (Hquiet d Hall Hin).
  - cbn in Hcalls. rewrite Hd, <- app_assoc in Hcalls.
    apply app_inv_head in Hcalls as <-.
    apply in_app_or in Hin as [Hin | [Hin | []]]; [destruct (Hquiet d Hall Hin) |].
    injection Hin as <-. exists fn, cfg. split; [exact Hcfg |].
    split; [reflexivity |]. split; [apply length_app |].
    split; [apply take_app_length | apply drop_app_length].
Qed.

Lemma existsb_filter_keep {A} (p q : A -> bool) (l : list A) :
  (forall x, p x = true -> q x = true) ->
  existsb p (List.filter q l) = existsb p l.
Proof.
  intros Hpq. induction l as [| x l IH]; [reflexivity |]. cbn.
  destruct (q x) eqn:Hq; cbn; [rewrite IH; reflexivity |].
  destruct (p x) eqn:Hp; [rewrite (Hpq x Hp) in Hq; discriminate |].
  exact IH.
Qed.

Lemma has_action_not_comment acts (s : Source) :
  has_action acts s = true -> negb (is_issue_comment s) = true.
Proof.
  unfold has_action, is_issue_comment.
  intros [Ht _]%andb_prop. apply String.eqb_eq in Ht. rewrite Ht. reflexivity.
Qed.

(** C7 (as the code has it). When the batch holds a closed pull_request
    event and the run gets past its gates (the commands are handed off,
    the permissions are up to date, the pull request does not change the
    configuration, the configuration is valid, the repository is not
    private without the entitlement) and the continuity step returns, the
    pointer is deleted right after the continuity step and before the
    evaluator is called. *)
Theorem closed_event_deletes_pointer client pull sub batch
  (w w1 w2 w3 : World) fn cfg :
  existsb (has_action ["closed"]) batch = true ->
  commands_phase (run_context client pull sub batch) batch w = Ok tt w1 ->
  permissions_need_to_be_updated client = false ->
  check_configuration_changes (run_context client pull sub batch) w1
  = Ok false w2 ->
  repo_config w2 None = ConfigFound fn cfg ->
  private pull && negb (has_private_repository sub) = false ->
  ensure_summary_on_head_sha (run_context client pull sub batch) w2 = Ok tt w3 ->
  exists w',
    run client pull sub batch w = Ok tt w'
    /\ last_summary_head_sha w' = None
    /\ calls w'
       = calls w3 ++ [DeleteLastSummaryHeadSha;
                      ActionsHandle (pull_request_rules cfg
                                     ++ DEFAULT_PULL_REQUEST_RULES)].
Proof.
  intros Hclosed Hcmd Hperm Hchg Hcfg Hent Hens.
  assert (Hclosed' : existsb (has_action ["closed"])
                       (sources (run_context client pull sub batch)) = true).
  { cbn [sources run_context]. rewrite existsb_filter_keep; [exact Hclosed |].
    intros s. apply has_action_not_comment. }
  unfold Engine.run. fold (run_context client pull sub batch).
  unfold commands_phase, bind in Hcmd. unfold bind at 1 2.
  destruct (run_pending_commands_tasks _ w) as [[] w0 | |]; try discriminate.
  rewrite Hcmd.
  destruct (sources (run_context client pull sub batch)) as [| s l] eqn:Hsrc;
    [discriminate |].
  rewrite Hperm. unfold bind at 1. rewrite Hchg.
  unfold bind at 1, get_mergify_config, gets at 1. rewrite Hcfg, Hent.
  unfold bind at 1. rewrite Hens. rewrite Hclosed'.
  eexists. split; [reflexivity |]. cbn. split; [reflexivity |].
  rewrite <- app_assoc. reflexivity.
Qed.

End Rules.

(** ** On sample inputs *)

Import EngineSamples.

Abbreviation sample_ensure := (@ensure_summary_on_head_sha string sample_id).
Abbreviation sample_get_summary := (@get_summary_from_sha string sample_id).
Abbreviation sample_run :=
  (@run string sample_id sample_defaults [".mergify.yml"]).

Lemma only_summary_at (sha other : string) pointer :
  other <> sha ->
  sample_get_summary (world_with_summary_at sha pointer) other = None.
Proof.
  intros Hne. unfold get_summary_from_sha, get_checks_for_ref. cbn.
  rewrite lookup_singleton_ne by congruence. reflexivity.
Qed.

Lemma chain_summary_republished_witness :
  exists w',
    sample_ensure (sample_context two_hops) (world_with_summary_at "c" None)
    = Ok tt w'
    /\ calls w' = republished (sample_context two_hops) sample_summary
    /\ last_summary_head_sha w' = Some "a".
Proof.
  apply (chain_summary_republished sample_id (sample_context two_hops)
           (world_with_summary_at "c" None) [("a", "b"); ("b", "c")] "c"
           sample_summary).
  - reflexivity.
  - reflexivity.
  - intros l. reflexivity.
  - cbn. auto.
  - compute_done.
  - reflexivity.
  - intros sha Hne. apply only_summary_at, Hne.
Defined.

(** C1, as stated, fails: the head went [c], [a], [b] and back to [a], the
    three events form a chain from the head down to [c], only [c] has a
    summary, and nothing is republished. *)
Lemma chain_with_repeated_revision_not_republished :
  existsb (fun check => String.eqb (name check) SUMMARY_NAME)
    (pull_engine_check_runs (sample_context there_and_back)
       (world_with_summary_at "c" None)) = false
  /\ last_summary_head_sha (world_with_summary_at "c" None) = None
  /\ (forall l, l ∈ batch_links (sample_context there_and_back)
                <-> l ∈ with_before <$> there_and_back_links)
  /\ is_chain (head_sha (pull (sample_context there_and_back)))
       there_and_back_links "c"
  /\ sample_get_summary (world_with_summary_at "c" None) "c"
     = Some sample_summary
  /\ (forall sha, sha <> "c" ->
        sample_get_summary (world_with_summary_at "c" None) sha = None)
  /\ sample_ensure (sample_context there_and_back)
       (world_with_summary_at "c" None)
     = Ok tt (world_with_summary_at "c" None).
Proof.
  split; [reflexivity |]. split; [reflexivity |]. split.
  { intros l.
    change (batch_links (sample_context there_and_back))
      with [("a", Some "c"); ("b", Some "a"); ("a", Some "b")].
    change (with_before <$> there_and_back_links)
      with [("a", Some "b"); ("b", Some "a"); ("a", Some "c")].
    rewrite !elem_of_cons. tauto. }
  split; [cbn; auto |]. split; [reflexivity |]. split.
  { intros sha Hne. apply only_summary_at, Hne. }
  vm_compute. reflexivity.
Qed.

Lemma pointer_without_summary_no_fallback_witness :
  sample_get_summary (world_with_summary_at "c" (Some "p")) "p" = None
  /\ sample_ensure (sample_context two_hops)
       (world_with_summary_at "c" (Some "p"))
     = Ok tt (world_with_summary_at "c" (Some "p")).
Proof.
  split; [reflexivity |].
  apply (pointer_without_summary_no_fallback sample_id
           (sample_context two_hops) (world_with_summary_at "c" (Some "p")) "p");
    [reflexivity | reflexivity | discriminate | reflexivity].
Defined.

Lemma ensure_noop_when_summary_on_head_witness :
  sample_ensure (sample_context two_hops) (world_with_summary_at "a" None)
  = Ok tt (world_with_summary_at "a" None)
  /\ (sample_ensure (sample_context two_hops);;;
      sample_ensure (sample_context two_hops)) (world_with_summary_at "a" None)
     = Ok tt (world_with_summary_at "a" None).
Proof.
  apply (ensure_noop_when_summary_on_head sample_id (sample_context two_hops)
           (world_with_summary_at "a" None)).
  reflexivity.
Defined.

(** C3, as stated, fails: a synchronize event with an [after] entry and no
    [before] entry is in the mapping, so the events of the mapping are not
    the synchronize events that carry a [before] entry. *)
Lemma mapping_keeps_event_without_before :
  ~ (forall d,
       (exists k,
          synchronize_events (sample_context [synchronize_without_before "a"]) !! k
          = Some d)
       <-> (exists s,
              In s (sources (sample_context [synchronize_without_before "a"]))
              /\ is_synchronize s = true
              /\ is_Some (before (data s))
              /\ d = data s)).
Proof.
  intros Hclaim.
  destruct (proj1 (Hclaim (data (synchronize_without_before "a"))))
    as (s & Hin & _ & [b Hb] & Hd).
  - exists "a". reflexivity.
  - destruct Hin as [<- | []]. discriminate.
Qed.

Lemma merged_rules_passed_to_evaluator_witness :
  final (sample_run sample_client sample_pull sample_sub two_hops
           (world_with_summary_at "a" None))
  = Some (log (ActionsHandle ["automerge"; "delete head branch"; "backports"])
            (after_commands (world_with_summary_at "a" None)))
  /\ exists fn cfg,
       sample_config = ConfigFound fn cfg
       /\ ["automerge"; "delete head branch"; "backports"]
          = pull_request_rules cfg ++ sample_defaults
       /\ length ["automerge"; "delete head branch"; "backports"]
          = (length (pull_request_rules cfg) + length sample_defaults)%nat
       /\ take (length (pull_request_rules cfg))
            ["automerge"; "delete head branch"; "backports"]
          = pull_request_rules cfg
       /\ drop (length (pull_request_rules cfg))
            ["automerge"; "delete head branch"; "backports"]
          = sample_defaults.
Proof.
  split; [reflexivity |].
  apply (merged_rules_passed_to_evaluator sample_id sample_defaults
           [".mergify.yml"] sample_client sample_pull sample_sub two_hops
           (world_with_summary_at "a" None)
           (log (ActionsHandle ["automerge"; "delete head branch"; "backports"])
              (after_commands (world_with_summary_at "a" None)))
           [RunPendingCommandsTasks;
            ActionsHandle ["automerge"; "delete head branch"; "backports"]]
           ["automerge"; "delete head branch"; "backports"]).
  - reflexivity.
  - reflexivity.
  - right. left. reflexivity.
Defined.

Lemma closed_event_deletes_pointer_witness :
  exists w',
    sample_run sample_client sample_pull sample_sub closing
      (world_with_summary_at "a" (Some "a"))
    = Ok tt w'
    /\ last_summary_head_sha w' = None
    /\ calls w'
       = [RunPendingCommandsTasks; DeleteLastSummaryHeadSha;
          ActionsHandle ["automerge"; "delete head branch"; "backports"]].
Proof.
  apply (closed_event_deletes_pointer sample_id sample_defaults [".mergify.yml"]
           sample_client sample_pull sample_sub closing
           (world_with_summary_at "a" (Some "a"))
           (after_commands (world_with_summary_at "a" (Some "a")))
           (after_commands (world_with_summary_at "a" (Some "a")))
           (after_commands (world_with_summary_at "a" (Some "a")))
           ".mergify.yml" {| pull_request_rules := ["automerge"] |});
    reflexivity.
Defined.

(** C7, as stated, fails: the batch closes the pull request of a private
    repository whose subscription lacks the entitlement; the run stops at
    that gate with a failure summary and the pointer stays. *)
Lemma closed_event_behind_gate_keeps_pointer :
  existsb (has_action ["closed"]) closing = true
  /\ exists w',
       sample_run sample_client private_pull lapsed_sub closing
         (world_with_summary_at "a" (Some "a"))
       = Ok tt w'
       /\ last_summary_head_sha w' = Some "a"
       /\ calls w'
          = [RunPendingCommandsTasks;
             CheckApiSetCheckRun "a" "Summary" "completed" "failure"
               {| title := "Mergify is disabled"; summary := "No subscription";
                  annotations := None |}].
Proof.
  split; [reflexivity |]. eexists. split; [vm_compute; reflexivity |].
  split; reflexivity.
Qed.

End EngineSpec.

(** * More properties of the subscription cache *)

Module SubUtilsMore.

Import Notions SubUtils SubUtilsSpec.

Lemma cache_key_inj (a b : N) : cache_key a = cache_key b -> a = b.
Proof.
  unfold cache_key. intros H. simpl in H.
  apply (inj pretty). simplify_eq. reflexivity.
Qed.

Section Codec.

Variable json_dumps : Subscription -> string.
Variable json_loads : string -> Subscription.
Variable encrypt : string -> string.
Variable decrypt : string -> string.

Abbreviation get_subscription :=
  (get_subscription json_dumps json_loads encrypt decrypt).
Abbreviation save_subscription_to_cache :=
  (save_subscription_to_cache json_dumps encrypt).
Abbreviation stored sub := (encrypt (json_dumps sub)).

(** A read that finds a fresh, non-empty entry returns its decoding and
    makes no other call. *)
Lemma get_subscription_hit owner_id (w : World) c expires :
  redis w !! cache_key owner_id = Some (c, expires) ->
  now w < expires ->
  c <> "" ->
  get_subscription owner_id w
  = Ok (json_loads (decrypt c)) (log (redis_get (cache_key owner_id)) w).
Proof.
  intros Hk Hlt Hne.
  unfold SubUtils.get_subscription, SubUtils._retrieve_subscription_from_cache, bind.
  rewrite (r_get_fresh _ c expires) by assumption.
  rewrite truthy_true by exact Hne. reflexivity.
Qed.

(** X1. Cache-aside: when a read misses and the source answers (found or
    not found), a second read less than 3600 later returns the same
    subscription from the cache, and its only call is the cache read. *)
Theorem get_fills_cache owner_id (w w1 : World) sub (dt : Z) :
  r_get (cache_key owner_id) w
  = Ok None (log (redis_get (cache_key owner_id)) w) ->
  get_subscription owner_id w = Ok sub w1 ->
  json_loads (decrypt (stored sub)) = sub ->
  stored sub <> "" ->
  0 <= dt < 3600 ->
  get_subscription owner_id (elapse dt w1)
  = Ok sub (log (redis_get (cache_key owner_id)) (elapse dt w1)).
Proof.
  intros Hmiss Hget Hround Hne Hdt.
  rewrite (get_subscription_miss _ _ _ _ _ _ Hmiss) in Hget.
  unfold SubUtils._retrieve_subscription_from_db, bind, client_get in Hget.
  assert (Hw1 : redis w1 !! cache_key owner_id = Some (stored sub, now w + 3600)
                /\ now w1 = now w).
  { destruct (source _ owner_id) as [body | message | e]; cbn in Hget;
      [| | discriminate]; injection Hget as <- <-; cbn;
      (split; [apply lookup_insert_eq | reflexivity]). }
  destruct Hw1 as [Hk Hnow].
  rewrite (get_subscription_hit owner_id (elapse dt w1) (stored sub) (now w + 3600));
    [rewrite Hround; reflexivity | exact Hk | cbn; lia | exact Hne].
Qed.

(** X2. Last writer wins: after two saves for one account, a read less
    than 3600 after the second save returns the second subscription, even
    when 3600 or more have passed since the first save. *)
Theorem save_twice_last_wins owner_id sub1 sub2 (w w1 w2 : World) (dt1 dt2 : Z) :
  save_subscription_to_cache owner_id sub1 w = Ok tt w1 ->
  save_subscription_to_cache owner_id sub2 (elapse dt1 w1) = Ok tt w2 ->
  json_loads (decrypt (stored sub2)) = sub2 ->
  stored sub2 <> "" ->
  0 <= dt2 < 3600 ->
  get_subscription owner_id (elapse dt2 w2)
  = Ok sub2 (log (redis_get (cache_key owner_id)) (elapse dt2 w2)).
Proof.
  intros Hs1 Hs2 Hround Hne Hdt.
  injection Hs2 as <-.
  rewrite (get_subscription_hit owner_id _ (stored sub2) (now w1 + dt1 + 3600));
    [rewrite Hround; reflexivity | cbn; apply lookup_insert_eq | cbn; lia | exact Hne].
Qed.

(** X3. Accounts do not share entries: saving a subscription for one
    account leaves the entry of every other account as it was, and a read
    for another account answers as it would have without the save. *)
Theorem save_leaves_other_accounts owner_id other sub (w w1 : World) :
  other <> owner_id ->
  save_subscription_to_cache owner_id sub w = Ok tt w1 ->
  redis w1 !! cache_key other = redis w !! cache_key other
  /\ answer (get_subscription other w1) = answer (get_subscription other w).
Proof.
  intros Hne Hsave. injection Hsave as <-.
  assert (Hk : cache_key owner_id <> cache_key other).
  { intros H. apply Hne. symmetry. apply cache_key_inj, H. }
  split; [cbn; apply lookup_insert_ne, Hk |].
  unfold SubUtils.get_subscription, SubUtils._retrieve_subscription_from_cache,
    SubUtils._retrieve_subscription_from_db, SubUtils.save_subscription_to_cache,
    bind, r_get, r_setex, client_get. cbn.
  rewrite lookup_insert_ne by exact Hk.
  destruct (redis w !! cache_key other) as [[c expires] |]; cbn.
  - destruct (decide (now w < expires)); cbn.
    + destruct (truthy c); cbn; [reflexivity |].
      destruct (source w other); reflexivity.
    + destruct (source w other); reflexivity.
  - destruct (source w other); reflexivity.
Qed.

(** X4. One read makes one cache read; it asks the source at most once,
    and only after the cache read; it writes the cache at most once, only
    after the source answered, and always for 3600. *)
Theorem get_subscription_calls owner_id (w w' : World) :
  final (get_subscription owner_id w) = Some w' ->
  calls w' = calls w ++ [redis_get (cache_key owner_id)]
  \/ calls w' = calls w ++ [redis_get (cache_key owner_id); http_get owner_id]
  \/ exists c,
       calls w'
       = calls w ++ [redis_get (cache_key owner_id); http_get owner_id;
                     redis_setex (cache_key owner_id) 3600 c].
Proof.
  unfold SubUtils.get_subscription, SubUtils._retrieve_subscription_from_cache,
    SubUtils._retrieve_subscription_from_db, SubUtils.save_subscription_to_cache,
    bind, r_get, r_setex, client_get. cbn.
  destruct (redis w !! cache_key owner_id) as [[c expires] |]; cbn.
  - destruct (decide (now w < expires)); cbn.
    + destruct (truthy c); cbn.
      * intros [= <-]. left. reflexivity.
      * destruct (source w owner_id); cbn; intros [= <-]; cbn;
          rewrite <- ?app_assoc; cbn; eauto.
    + destruct (source w owner_id); cbn; intros [= <-]; cbn;
        rewrite <- ?app_assoc; cbn; eauto.
  - destruct (source w owner_id); cbn; intros [= <-]; cbn;
      rewrite <- ?app_assoc; cbn; eauto.
Qed.

(** X5. An entry whose value is empty counts as a miss: the source is
    asked although the entry has not expired. *)
Theorem empty_entry_is_a_miss owner_id (w : World) expires :
  redis w !! cache_key owner_id = Some ("", expires) ->
  now w < expires ->
  exists w' rest,
    final (get_subscription owner_id w) = Some w'
    /\ calls w'
       = calls w ++ redis_get (cache_key owner_id) :: http_get owner_id :: rest.
Proof.
  intros Hk Hlt.
  unfold SubUtils.get_subscription, SubUtils._retrieve_subscription_from_cache,
    SubUtils._retrieve_subscription_from_db, bind, r_get, client_get.
  rewrite Hk. destruct (decide (now w < expires)); [| contradiction]. cbn.
  destruct (source w owner_id); cbn; eexists; eexists;
    (split; [reflexivity |]); cbn; rewrite <- ?app_assoc; reflexivity.
Qed.

End Codec.

(** ** On sample inputs *)

Import SubUtilsSamples MoreSamples.

Lemma get_fills_cache_witness :
  exists w1,
    sample_get 42%N sample_world
    = Ok {| tokens := ∅; subscription_active := false;
            subscription_reason := "Organization or user not found" |} w1
    /\ sample_get 42%N (elapse 3599 w1)
       = Ok {| tokens := ∅; subscription_active := false;
               subscription_reason := "Organization or user not found" |}
            (log (redis_get (cache_key 42%N)) (elapse 3599 w1)).
Proof.
  eexists. split; [reflexivity |].
  apply (get_fills_cache sample_dumps sample_loads sample_encrypt sample_decrypt
           42%N sample_world);
    [reflexivity | reflexivity | reflexivity | discriminate | lia].
Defined.

Lemma save_twice_last_wins_witness :
  exists w1 w2,
    sample_save 42%N sample_sub sample_world = Ok tt w1
    /\ sample_save 42%N
         {| tokens := ∅; subscription_active := false;
            subscription_reason := "expired" |} (elapse 5000 w1) = Ok tt w2
    /\ sample_get 42%N (elapse 3599 w2)
       = Ok {| tokens := ∅; subscription_active := false;
               subscription_reason := "expired" |}
            (log (redis_get (cache_key 42%N)) (elapse 3599 w2)).
Proof.
  eexists. eexists. split; [reflexivity |]. split; [reflexivity |].
  eapply (save_twice_last_wins sample_dumps sample_loads sample_encrypt
            sample_decrypt 42%N sample_sub _ sample_world _ _ 5000 3599);
    [reflexivity | reflexivity | reflexivity | discriminate | lia].
Defined.

Lemma save_leaves_other_accounts_witness :
  exists w1,
    sample_save 42%N sample_sub sample_world = Ok tt w1
    /\ redis w1 !! cache_key 7%N = redis sample_world !! cache_key 7%N
    /\ answer (sample_get 7%N w1) = answer (sample_get 7%N sample_world).
Proof.
  eexists. split; [reflexivity |].
  apply (save_leaves_other_accounts sample_dumps sample_loads sample_encrypt
           sample_decrypt 42%N 7%N sample_sub sample_world);
    [discriminate | reflexivity].
Defined.

Lemma get_subscription_calls_witness :
  exists w',
    final (sample_get 42%N sample_world) = Some w'
    /\ (calls w' = calls sample_world ++ [redis_get (cache_key 42%N)]
        \/ calls w'
           = calls sample_world ++ [redis_get (cache_key 42%N); http_get 42%N]
        \/ exists c,
             calls w'
             = calls sample_world
               ++ [redis_get (cache_key 42%N); http_get 42%N;
                   redis_setex (cache_key 42%N) 3600 c]).
Proof.
  eexists. split; [reflexivity |].
  apply (get_subscription_calls sample_dumps sample_loads sample_encrypt
           sample_decrypt 42%N sample_world).
  reflexivity.
Defined.

Lemma empty_entry_is_a_miss_witness :
  redis world_with_empty_entry !! cache_key 42%N = Some ("", 200)
  /\ exists w' rest,
       final (sample_get 42%N world_with_empty_entry) = Some w'
       /\ calls w'
          = calls world_with_empty_entry
            ++ redis_get (cache_key 42%N) :: http_get 42%N :: rest.
Proof.
  split; [reflexivity |].
  apply (empty_entry_is_a_miss sample_dumps sample_loads sample_encrypt
           sample_decrypt 42%N world_with_empty_entry 200);
    [reflexivity | reflexivity].
Defined.

End SubUtilsMore.

(** * More properties of the engine *)

Module EngineMore.

Import Notions Engine EngineNotions EngineSpec.

(** ** Splitting a contents url *)

Lemma append_nil_r (s : string) : s +:+ "" = s.
Proof.
  induction s as [| c s IH]; [reflexivity |].
  change (String c (s +:+ "") = String c s). f_equal. exact IH.
Qed.

Lemma append_assoc (s1 s2 s3 : string) :
  (s1 +:+ s2) +:+ s3 = s1 +:+ (s2 +:+ s3).
Proof.
  induction s1 as [| c s1 IH]; [reflexivity |].
  change (String c ((s1 +:+ s2) +:+ s3) = String c (s1 +:+ s2 +:+ s3)).
  f_equal. exact IH.
Qed.

Lemma length_append (s1 s2 : string) :
  String.length (s1 +:+ s2) = (String.length s1 + String.length s2)%nat.
Proof.
  induction s1 as [| c s1 IH]; [reflexivity |].
  change (S (String.length (s1 +:+ s2))
          = S (String.length s1 + String.length s2)).
  f_equal. exact IH.
Qed.

Lemma prefix_true (p s : string) :
  String.prefix p s = true <-> exists r, s = p +:+ r.
Proof.
  revert s. induction p as [| c p IH]; intros s.
  - split; [intros _; exists s; reflexivity | intros _; destruct s; reflexivity].
  - destruct s as [| c' s]; simpl.
    { split; [discriminate |]. intros [r Hr].
      change ("" = String c (p +:+ r)) in Hr. discriminate. }
    destruct (Ascii.ascii_dec c c') as [<- | Hne].
    + rewrite IH. split; intros [r Hr]; exists r.
      * change (String c s = String c (p +:+ r)). f_equal. exact Hr.
      * change (String c s = String c (p +:+ r)) in Hr. injection Hr as ->.
        reflexivity.
    + split; [discriminate |]. intros [r Hr].
      change (String c' s = String c (p +:+ r)) in Hr. injection Hr as Hc _.
      congruence.
Qed.

(** Dropping the rest of a separator that was just recognised. *)
Lemma split_go_skip (sep t rest cur : string) :
  split_go sep (t +:+ rest) (String.length t) cur = split_go sep rest O cur.
Proof.
  induction t as [| c t IH]; [reflexivity | exact IH].
Qed.

Lemma split_go_cons (sep s cur : string) (skip : nat) :
  exists x l, split_go sep s skip cur = x :: l.
Proof.
  revert skip cur. induction s as [| c s IH]; intros skip cur; cbn [split_go]; [eauto |].
  destruct skip; [| apply IH].
  destruct (String.prefix sep (String c s)); [eauto | apply IH].
Qed.

Lemma split_go_concat (sep : string) (n : nat) :
  sep <> "" ->
  forall s cur,
    (String.length s <= n)%nat ->
    String.concat sep (split_go sep s O cur) = cur +:+ s.
Proof.
  intros Hsep. induction n as [| n IH]; intros s cur Hlen.
  - destruct s; [cbn; rewrite append_nil_r; reflexivity | simpl in Hlen; lia].
  - destruct s as [| c s]; [cbn; rewrite append_nil_r; reflexivity |].
    cbn [split_go].
    destruct (String.prefix sep (String c s)) eqn:Hp.
    + apply prefix_true in Hp as [rest Hrest].
      destruct sep as [| c' sep']; [contradiction |].
      cbn in Hrest. injection Hrest as <- ->. cbn [String.length Nat.pred].
      rewrite split_go_skip.
      destruct (split_go_cons (String c sep') rest "" O) as (x & l & Hxl).
      assert (Hrec : String.concat (String c sep') (split_go (String c sep') rest O "")
                     = rest).
      { apply (IH rest ""). simpl in Hlen.
        rewrite length_append in Hlen. lia. }
      rewrite Hxl.
      change (String.concat (String c sep') (cur :: x :: l))
        with (cur +:+ String c sep' +:+ String.concat (String c sep') (x :: l)).
      rewrite <- Hxl, Hrec. reflexivity.
    + rewrite IH by (simpl in Hlen; lia). rewrite append_assoc. reflexivity.
Qed.

(** Joining the parts of a split with the separator gives the string
    back, for every non-empty separator. *)
Lemma split_concat (sep s : string) :
  sep <> "" -> String.concat sep (split sep s) = s.
Proof.
  intros Hsep. unfold split.
  apply (split_go_concat sep (String.length s) Hsep s ""). lia.
Qed.

Lemma split_go_absent (sep : string) :
  forall s cur, ~ occurs sep s -> split_go sep s O cur = [cur +:+ s].
Proof.
  induction s as [| c s IH]; intros cur Hno; cbn [split_go];
    [rewrite append_nil_r; reflexivity |].
  destruct (String.prefix sep (String c s)) eqn:Hp.
  - exfalso. apply prefix_true in Hp as [r Hr]. apply Hno. exists "", r. exact Hr.
  - rewrite IH; [rewrite append_assoc; reflexivity |].
    intros (pre & post & ->). apply Hno. exists (String c pre), post. reflexivity.
Qed.

Lemma split_go_present (sep : string) :
  sep <> "" ->
  forall pre post cur,
    exists x y l, split_go sep (pre +:+ sep +:+ post) O cur = x :: y :: l.
Proof.
  intros Hsep.
  assert (Hhit : forall s cur, String.prefix sep s = true ->
                   exists x y l, split_go sep s O cur = x :: y :: l).
  { intros s cur Hp. destruct s as [| c s].
    - destruct sep; [contradiction | discriminate].
    - cbn [split_go]. rewrite Hp.
      destruct (split_go_cons sep s "" (Nat.pred (String.length sep)))
        as (y & l & ->). eauto. }
  induction pre as [| c pre IH]; intros post cur.
  - apply Hhit, prefix_true. exists post. reflexivity.
  - change (String c pre +:+ sep +:+ post)
      with (String c (pre +:+ sep +:+ post)).
    destruct (String.prefix sep (String c (pre +:+ sep +:+ post))) eqn:Hp;
      [apply Hhit, Hp |].
    cbn [split_go]. rewrite Hp. apply IH.
Qed.

(** The second part of a split, the one [check_configuration_changes]
    takes as the ref, is missing exactly when the separator does not occur
    in the string. *)
Lemma split_second_part (sep s : string) :
  sep <> "" ->
  split sep s !! 1%nat = None <-> ~ occurs sep s.
Proof.
  intros Hsep. unfold split. split.
  - intros Hnone (pre & post & ->).
    destruct (split_go_present sep Hsep pre post "") as (x & y & l & Hxy).
    rewrite Hxy in Hnone. discriminate.
  - intros Hno. rewrite split_go_absent by exact Hno. reflexivity.
Qed.

Section Rules.

Context {Rule : Type}.
Variable INTEGRATION_ID : Z.
Variable DEFAULT_PULL_REQUEST_RULES : list Rule.
Variable MERGIFY_CONFIG_FILENAMES : list string.

Abbreviation World := (@World Rule).
Abbreviation Call := (@Call Rule).
Abbreviation get_summary_from_sha := (@get_summary_from_sha Rule INTEGRATION_ID).
Abbreviation walk_turn := (@walk_turn Rule INTEGRATION_ID).
Abbreviation walk := (@walk Rule INTEGRATION_ID).
Abbreviation reaches := (@reaches Rule INTEGRATION_ID).
Abbreviation get_summary_from_synchronize_event :=
  (@get_summary_from_synchronize_event Rule INTEGRATION_ID).
Abbreviation ensure_summary_on_head_sha :=
  (@ensure_summary_on_head_sha Rule INTEGRATION_ID).
Abbreviation set_check_run := (@set_check_run Rule INTEGRATION_ID).
Abbreviation config_ref := (@config_ref Rule MERGIFY_CONFIG_FILENAMES).
Abbreviation check_configuration_changes :=
  (@check_configuration_changes Rule INTEGRATION_ID MERGIFY_CONFIG_FILENAMES).
Abbreviation carried := (@carried INTEGRATION_ID).
Abbreviation run :=
  (@run Rule INTEGRATION_ID DEFAULT_PULL_REQUEST_RULES MERGIFY_CONFIG_FILENAMES).
Abbreviation is_config := (is_config_file MERGIFY_CONFIG_FILENAMES).
Abbreviation has_summary ctxt w :=
  (existsb (fun check => String.eqb (name check) SUMMARY_NAME)
     (pull_engine_check_runs ctxt w)).

(** ** check_configuration_changes *)

(** The loop over the files reads and never writes. *)
Lemma config_ref_pure (fs : list File) :
  forall ref (w : World),
    (exists r, config_ref fs ref w = Ok r w)
    \/ config_ref fs ref w = Raise IndexError w.
Proof.
  induction fs as [| f fs IH]; intros ref w; cbn [Engine.config_ref]; [left; eauto |].
  destruct (existsb _ _); [| apply IH].
  destruct (split _ _ !! 1%nat); [apply IH | right; reflexivity].
Qed.

Lemma config_ref_no_config_file (fs : list File) ref (w : World) :
  Forall (fun f => is_config f = false) fs ->
  config_ref fs ref w = Ok ref w.
Proof.
  induction 1 as [| f fs Hf _ IH]; cbn [Engine.config_ref]; [reflexivity |].
  unfold is_config_file in Hf. rewrite Hf. exact IH.
Qed.

Lemma config_ref_last (pre post : list File) (f : File) (r : string) :
  Forall (fun g => is_config g = true ->
                   is_Some (split "?ref=" (contents_url g) !! 1%nat)) pre ->
  is_config f = true ->
  split "?ref=" (contents_url f) !! 1%nat = Some r ->
  Forall (fun g => is_config g = false) post ->
  forall ref (w : World), config_ref (pre ++ f :: post) ref w = Ok (Some r) w.
Proof.
  intros Hpre Hf Hr Hpost.
  induction Hpre as [| g pre Hg _ IH]; intros ref w; cbn [app Engine.config_ref].
  - unfold is_config_file in Hf. rewrite Hf, Hr.
    apply config_ref_no_config_file, Hpost.
  - destruct (existsb _ _) eqn:Hcfg; [| apply IH].
    destruct (Hg Hcfg) as [r' ->]. apply IH.
Qed.

(** X6. All that [check_configuration_changes] can do: return False with
    the world untouched; return True after publishing one check-run on the
    head, the valid or the invalid verdict, the pointer untouched; or raise
    IndexError or NoRules with the world untouched. *)
Theorem check_configuration_changes_outcomes (ctxt : Context) (w : World) :
  check_configuration_changes ctxt w = Ok false w
  \/ (exists w',
        check_configuration_changes ctxt w = Ok true w'
        /\ last_summary_head_sha w' = last_summary_head_sha w
        /\ (calls w' = calls w ++ [config_valid_call ctxt]
            \/ exists e, calls w' = calls w ++ [config_invalid_call ctxt e]))
  \/ check_configuration_changes ctxt w = Raise IndexError w
  \/ check_configuration_changes ctxt w = Raise NoRules w.
Proof.
  remember (check_configuration_changes ctxt w) as o eqn:Ho.
  unfold Engine.check_configuration_changes in Ho.
  destruct (String.eqb _ _); [| left; exact Ho].
  unfold bind at 1, gets at 1 in Ho. cbv beta iota in Ho. unfold bind at 1 in Ho.
  destruct (config_ref_pure (pull_files w) None w) as [[r Hr] | Hr];
    rewrite Hr in Ho; [| right; right; left; exact Ho].
  destruct r as [r |]; [| left; exact Ho].
  unfold bind at 1, get_mergify_config, gets in Ho.
  destruct (repo_config w (Some r)) as [fn cfg | | e].
  - right; left. eexists. split; [exact Ho |]. split; [reflexivity |].
    left. reflexivity.
  - right; right; right. exact Ho.
  - right; left. eexists. split; [exact Ho |]. split; [reflexivity |].
    right. exists e. reflexivity.
Qed.

(** X7. A pull request whose base is not the default branch, or that
    changes no configuration file, is not a configuration change: False is
    returned and nothing is published. *)
Theorem not_a_configuration_change (ctxt : Context) (w : World) :
  default_branch (pull ctxt) <> base_ref (pull ctxt)
  \/ Forall (fun f => is_config f = false) (pull_files w) ->
  check_configuration_changes ctxt w = Ok false w.
Proof.
  intros Hcase. unfold Engine.check_configuration_changes.
  destruct (String.eqb_spec (default_branch (pull ctxt)) (base_ref (pull ctxt)))
    as [Heq | Hne]; [| reflexivity].
  destruct Hcase as [Hne | Hnone]; [contradiction |].
  unfold bind at 1, gets at 1. cbv beta iota. unfold bind at 1.
  rewrite config_ref_no_config_file by exact Hnone. reflexivity.
Qed.

(** X8. On the default branch, the configuration is validated at the ref
    of the last changed file that is a configuration file: a valid one
    gives the valid verdict and True, an invalid one the invalid verdict
    with the error's message and annotations and True, and a missing one
    raises NoRules with nothing published. *)
Theorem configuration_change_verdict (ctxt : Context) (w : World)
  (pre post : list File) (f : File) (r : string) :
  default_branch (pull ctxt) = base_ref (pull ctxt) ->
  pull_files w = pre ++ f :: post ->
  Forall (fun g => is_config g = true ->
                   is_Some (split "?ref=" (contents_url g) !! 1%nat)) pre ->
  is_config f = true ->
  split "?ref=" (contents_url f) !! 1%nat = Some r ->
  Forall (fun g => is_config g = false) post ->
  match repo_config w (Some r) with
  | ConfigFound _ _ =>
      exists w',
        check_configuration_changes ctxt w = Ok true w'
        /\ calls w' = calls w ++ [config_valid_call ctxt]
  | ConfigInvalidRules e =>
      exists w',
        check_configuration_changes ctxt w = Ok true w'
        /\ calls w' = calls w ++ [config_invalid_call ctxt e]
  | ConfigNoRules => check_configuration_changes ctxt w = Raise NoRules w
  end.
Proof.
  intros Hbranch Hfiles Hpre Hf Hr Hpost.
  remember (check_configuration_changes ctxt w) as o eqn:Ho.
  unfold Engine.check_configuration_changes in Ho.
  rewrite Hbranch, String.eqb_refl in Ho.
  unfold bind at 1, gets at 1 in Ho. cbv beta iota in Ho. unfold bind at 1 in Ho.
  rewrite Hfiles, (config_ref_last pre post f r Hpre Hf Hr Hpost) in Ho.
  unfold bind at 1, get_mergify_config, gets in Ho.
  destruct (repo_config w (Some r)) as [fn cfg | | e].
  - eexists. split; [exact Ho | reflexivity].
  - exact Ho.
  - eexists. split; [exact Ho | reflexivity].
Qed.

Lemma config_ref_without_ref (pre post : list File) (f : File) :
  Forall (fun g => is_config g = true ->
                   is_Some (split "?ref=" (contents_url g) !! 1%nat)) pre ->
  is_config f = true ->
  split "?ref=" (contents_url f) !! 1%nat = None ->
  forall ref (w : World), config_ref (pre ++ f :: post) ref w = Raise IndexError w.
Proof.
  intros Hpre Hf Hr.
  induction Hpre as [| g pre Hg _ IH]; intros ref w; cbn [app Engine.config_ref].
  - unfold is_config_file in Hf. rewrite Hf, Hr. reflexivity.
  - destruct (existsb _ _) eqn:Hcfg; [| apply IH].
    destruct (Hg Hcfg) as [r' ->]. apply IH.
Qed.

(** X9. On the default branch, a changed configuration file whose
    contents url holds no "?ref=" makes [check_configuration_changes]
    raise IndexError, with nothing published, whatever files come after
    it. *)
Theorem configuration_url_without_ref (ctxt : Context) (w : World)
  (pre post : list File) (f : File) :
  default_branch (pull ctxt) = base_ref (pull ctxt) ->
  pull_files w = pre ++ f :: post ->
  Forall (fun g => is_config g = true ->
                   is_Some (split "?ref=" (contents_url g) !! 1%nat)) pre ->
  is_config f = true ->
  ~ occurs "?ref=" (contents_url f) ->
  check_configuration_changes ctxt w = Raise IndexError w.
Proof.
  intros Hbranch Hfiles Hpre Hf Hno.
  apply (split_second_part "?ref=") in Hno; [| discriminate].
  unfold Engine.check_configuration_changes.
  rewrite Hbranch, String.eqb_refl.
  unfold bind at 1, gets at 1. cbv beta iota. unfold bind at 1.
  rewrite Hfiles, (config_ref_without_ref pre post f Hpre Hf Hno).
  reflexivity.
Qed.

(** ** The continuity tracker *)

Lemma get_summary_from_sha_carried (w : World) (sha : string) (c : CheckRun) :
  get_summary_from_sha w sha = Some c -> carried c = true.
Proof.
  unfold Engine.get_summary_from_sha, get_checks_for_ref.
  rewrite (filter_filter_head
             (fun c => String.eqb (name c) SUMMARY_NAME)
             (fun c => Z.eqb (app_id c) INTEGRATION_ID)).
  intros [_ H]%find_some. exact H.
Qed.

(** What the two writes of a republication leave. *)
Lemma republish_outcome (ctxt : Context) (w : World) (s : CheckRun) :
  exists w',
    (set_check_run ctxt SUMMARY_NAME "completed" "success"
       {| title := output_title s; summary := output_summary s;
          annotations := None |};;;
     save_last_summary_head_sha ctxt) w = Ok tt w'
    /\ calls w' = calls w ++ republished ctxt s
    /\ last_summary_head_sha w' = Some (head_sha (pull ctxt)).
Proof.
  eexists. split; [reflexivity |]. cbn. split; [| reflexivity].
  rewrite <- app_assoc. reflexivity.
Qed.

(** X10. When the head has no summary and the pointed revision has one,
    that summary is published on the head as a success with its title and
    body and the pointer is moved to the head, whatever the batch holds. *)
Theorem pointer_summary_republished (ctxt : Context) (w : World)
  (sha : string) (s : CheckRun) :
  has_summary ctxt w = false ->
  last_summary_head_sha w = Some sha ->
  sha <> "" ->
  get_summary_from_sha w sha = Some s ->
  exists w',
    ensure_summary_on_head_sha ctxt w = Ok tt w'
    /\ calls w' = calls w ++ republished ctxt s
    /\ last_summary_head_sha w' = Some (head_sha (pull ctxt)).
Proof.
  intros Hhead Hptr Hne Hs.
  destruct (republish_outcome ctxt w s) as (w' & Hw' & Hcalls & Hp).
  exists w'. split; [| split; assumption].
  unfold Engine.ensure_summary_on_head_sha, bind at 1 2 3, gets,
    get_last_summary_head_sha, gets.
  rewrite Hhead, Hptr, truthy_true by exact Hne. rewrite Hs. exact Hw'.
Qed.

(** How a walk can end: a summary it found is the summary of some
    revision, and the only exception is the missing [before] entry. *)
Lemma walk_end_cases (w : World) (fuel : nat) :
  forall (events : gmap string Data) after_sha,
    match (walk fuel w events after_sha).1 with
    | Found s => exists sha, get_summary_from_sha w sha = Some s
    | Failed e => e = KeyError "before"
    | _ => True
    end.
Proof.
  induction fuel as [| fuel IH]; intros events a; cbn [Engine.walk].
  - destruct (decide (events = ∅)); exact I.
  - destruct (decide (events = ∅)); [exact I |].
    unfold Engine.walk_turn.
    destruct (events !! a) as [d |]; [| exact I].
    destruct (before d) as [b |]; [| reflexivity].
    destruct (Engine.get_summary_from_sha _ w b) as [s |] eqn:Hs;
      cbn [fst]; [exists b; exact Hs | apply IH].
Qed.

(** X11. All that [ensure_summary_on_head_sha] can do: nothing; raise
    KeyError for a missing [before] entry before any write; or publish on
    the head a success with the title and body of a check-run that has the
    reserved name and this integration's id, and save the head as the
    pointer. *)
Theorem ensure_summary_outcomes (ctxt : Context) (w : World) :
  ensure_summary_on_head_sha ctxt w = Ok tt w
  \/ ensure_summary_on_head_sha ctxt w = Raise (KeyError "before") w
  \/ exists s w',
       carried s = true
       /\ ensure_summary_on_head_sha ctxt w = Ok tt w'
       /\ calls w' = calls w ++ republished ctxt s
       /\ last_summary_head_sha w' = Some (head_sha (pull ctxt)).
Proof.
  remember (ensure_summary_on_head_sha ctxt w) as o eqn:Ho.
  unfold Engine.ensure_summary_on_head_sha, bind at 1 2, gets at 1,
    get_last_summary_head_sha, gets at 1 in Ho.
  cbv beta iota in Ho.
  destruct (existsb _ _); [left; exact Ho |].
  assert (Hpub : forall s sha, get_summary_from_sha w sha = Some s ->
            o = (set_check_run ctxt SUMMARY_NAME "completed" "success"
                   {| title := output_title s; summary := output_summary s;
                      annotations := None |};;;
                 save_last_summary_head_sha ctxt) w ->
            exists s w',
              carried s = true /\ o = Ok tt w'
              /\ calls w' = calls w ++ republished ctxt s
              /\ last_summary_head_sha w' = Some (head_sha (pull ctxt))).
  { intros s sha Hs ->. destruct (republish_outcome ctxt w s) as (w' & H1 & H2 & H3).
    exists s, w'. split; [eapply get_summary_from_sha_carried, Hs | auto]. }
  assert (Hwalk :
    o = bind (get_summary_from_synchronize_event ctxt)
          (fun previous_summary =>
             match previous_summary with
             | Some s =>
                 set_check_run ctxt SUMMARY_NAME "completed" "success"
                   {| title := output_title s; summary := output_summary s;
                      annotations := None |};;;
                 save_last_summary_head_sha ctxt
             | None => ret tt
             end) w ->
    o = Ok tt w \/ o = Raise (KeyError "before") w
    \/ exists s w',
         carried s = true /\ o = Ok tt w'
         /\ calls w' = calls w ++ republished ctxt s
         /\ last_summary_head_sha w' = Some (head_sha (pull ctxt))).
  { clear Ho. intros Ho.
    unfold bind at 1, Engine.get_summary_from_synchronize_event in Ho.
    pose proof (walk_end_cases w (size (synchronize_events ctxt))
                  (synchronize_events ctxt) (head_sha (pull ctxt))) as Hend.
    pose proof (walk_within_budget INTEGRATION_ID w _ (synchronize_events ctxt)
                  (head_sha (pull ctxt)) (le_n _)) as [Hcut _].
    destruct ((Engine.walk _ _ w _ _).1) as [s | | | e |].
    - destruct Hend as [sha Hs]. right; right. apply (Hpub s sha Hs Ho).
    - left. exact Ho.
    - left. exact Ho.
    - right; left. subst e. exact Ho.
    - contradiction. }
  destruct (last_summary_head_sha w) as [sha |]; [| apply Hwalk, Ho].
  destruct (truthy sha); [| apply Hwalk, Ho].
  unfold bind at 1, gets at 1 in Ho.
  destruct (Engine.get_summary_from_sha _ w sha) as [s |] eqn:Hs.
  - right; right. apply (Hpub s sha Hs Ho).
  - left. exact Ho.
Qed.

(** The walk along links whose revisions have no summary until the last
    one. *)
Lemma walk_along_links (w : World) (first : string) (s : CheckRun) :
  get_summary_from_sha w first = Some s ->
  forall (links : list (string * string)) head (events : gmap string Data) fuel,
    is_chain head links first ->
    NoDup (links.*1) ->
    (forall a b, (a, b) ∈ links ->
       b <> first -> get_summary_from_sha w b = None) ->
    (forall a b, (a, b) ∈ links ->
       exists d, events !! a = Some d /\ before d = Some b) ->
    (size events <= fuel)%nat ->
    (walk fuel w events head).1 = Found s.
Proof.
  intros Hs links.
  induction links as [| [a b] rest IH];
    intros head events fuel Hchain Hnd Hnone Hin Hsize; [destruct Hchain |].
  destruct Hchain as [-> Hrest].
  destruct (Hin head b) as (d & Hd & Hb); [left |].
  assert (Hne : events <> ∅).
  { intros ->. rewrite lookup_empty in Hd. discriminate. }
  destruct fuel as [| fuel].
  { apply map_size_non_empty_iff in Hne. lia. }
  cbn [Engine.walk]. destruct (decide (events = ∅)); [contradiction |].
  unfold Engine.walk_turn. rewrite Hd, Hb.
  destruct (decide (b = first)) as [-> | Hbf].
  { rewrite Hs. reflexivity. }
  rewrite (Hnone head b) by (left || exact Hbf). cbn.
  rewrite fmap_cons in Hnd. apply NoDup_cons in Hnd as [Hnotin Hnd].
  destruct rest as [| l rest']; [contradiction |].
  apply IH; [exact Hrest | exact Hnd | | |].
  - intros a' b' Hab'. apply (Hnone a' b'). right. exact Hab'.
  - intros a' b' Hab'. destruct (Hin a' b') as (d' & Hd' & Hb'); [right; exact Hab' |].
    exists d'. split; [| exact Hb'].
    rewrite lookup_delete_ne; [exact Hd' |].
    intros <-. apply Hnotin. apply list_elem_of_fmap. exists (head, b'). auto.
  - rewrite map_size_delete, Hd. cbn. lia.
Qed.

(** X12. The walk stops at the nearest revision that has a summary: when
    the mapping holds the links of a chain from the head, with pairwise
    distinct after-revisions, whose last before-revision has a summary and
    whose earlier ones have none, the walk returns that summary, whatever
    other events the batch holds and whatever summaries other revisions
    have. *)
Theorem walk_returns_nearest_summary (ctxt : Context) (w : World)
  (links : list (string * string)) (first : string) (s : CheckRun) :
  is_chain (head_sha (pull ctxt)) links first ->
  NoDup (links.*1) ->
  (forall a b, (a, b) ∈ links ->
     exists d, synchronize_events ctxt !! a = Some d /\ before d = Some b) ->
  (forall a b, (a, b) ∈ links ->
     b <> first -> get_summary_from_sha w b = None) ->
  get_summary_from_sha w first = Some s ->
  get_summary_from_synchronize_event ctxt w = Ok (Some s) w.
Proof.
  intros Hchain Hnd Hin Hnone Hs.
  unfold Engine.get_summary_from_synchronize_event.
  rewrite (walk_along_links w first s Hs links (head_sha (pull ctxt))
             (synchronize_events ctxt) _ Hchain Hnd Hnone Hin (le_n _)).
  reflexivity.
Qed.

(** X13. A synchronize event without a [before] entry that the walk comes
    to makes the tracker raise KeyError, before anything is published or
    saved. *)
Theorem walk_raises_on_missing_before (ctxt : Context) (w : World)
  (events : gmap string Data) (after_sha : string) (d : Data) :
  has_summary ctxt w = false ->
  last_summary_head_sha w = None ->
  reaches w (synchronize_events ctxt, head_sha (pull ctxt)) (events, after_sha) ->
  events !! after_sha = Some d ->
  before d = None ->
  ensure_summary_on_head_sha ctxt w = Raise (KeyError "before") w.
Proof.
  intros Hhead Hptr Hreach Hd Hb.
  apply (reaches_same_end INTEGRATION_ID) in Hreach. cbn [fst snd] in Hreach.
  assert (Hend : (walk (size events) w events after_sha).1
                 = Failed (KeyError "before")).
  { assert (Hne : events <> ∅).
    { intros ->. rewrite lookup_empty in Hd. discriminate. }
    destruct (size events) as [| n] eqn:Hsize.
    { apply map_size_empty_inv in Hsize. contradiction. }
    cbn [Engine.walk]. destruct (decide (events = ∅)); [contradiction |].
    unfold Engine.walk_turn. rewrite Hd, Hb. reflexivity. }
  unfold Engine.ensure_summary_on_head_sha, bind at 1 2 3, gets,
    get_last_summary_head_sha, gets.
  rewrite Hhead, Hptr.
  unfold Engine.get_summary_from_synchronize_event. rewrite Hreach, Hend.
  reflexivity.
Qed.

(** ** Calls of a run *)

Abbreviation emits := (EngineNotions.emits (Rule:=Rule)).

Lemma emits_ret {A} (P : Call -> Prop) (a : A) : emits P (ret a).
Proof.
  intros w w' [= <-]. exists []. rewrite app_nil_r. split; [reflexivity | constructor].
Qed.

Lemma emits_raise {A} (P : Call -> Prop) (e : exn) :
  emits P (@raise World A e).
Proof.
  intros w w' [= <-]. exists []. rewrite app_nil_r. split; [reflexivity | constructor].
Qed.

Lemma emits_gets {A} (P : Call -> Prop) (f : World -> A) : emits P (gets f).
Proof.
  intros w w' [= <-]. exists []. rewrite app_nil_r. split; [reflexivity | constructor].
Qed.

Lemma emits_bind {A B} (P : Call -> Prop) (m : M World A) (k : A -> M World B) :
  emits P m -> (forall a, emits P (k a)) -> emits P (bind m k).
Proof.
  intros Hm Hk w w' [(a & w1 & Hmw & Hkw) | (e & Hmw)]%final_bind.
  - destruct (Hm w w1) as (d1 & Hd1 & Hf1); [rewrite Hmw; reflexivity |].
    destruct (Hk a w1 w' Hkw) as (d2 & Hd2 & Hf2).
    exists (d1 ++ d2). rewrite Hd2, Hd1, app_assoc. split; [reflexivity |].
    apply Forall_app. auto.
  - apply Hm. rewrite Hmw. reflexivity.
Qed.

Lemma emits_for_each {A} (P : Call -> Prop) (l : list A) (f : A -> M World unit) :
  (forall x, emits P (f x)) -> emits P (for_each l f).
Proof.
  intros Hf. induction l as [| x l IH]; cbn; [apply emits_ret |].
  apply emits_bind; auto.
Qed.

(** An action that logs one call. *)
Lemma emits_one {A} (P : Call -> Prop) (m : M World A) (c : Call) :
  (forall w w', final (m w) = Some w' -> calls w' = calls w ++ [c]) ->
  P c -> emits P m.
Proof.
  intros Hm Hc w w' Hfin. exists [c]. split; [apply Hm, Hfin |].
  constructor; [exact Hc | constructor].
Qed.

Lemma emits_set_check_run (P : Call -> Prop) ctxt n st concl output :
  P (CheckApiSetCheckRun (head_sha (pull ctxt)) n st concl output) ->
  emits P (set_check_run ctxt n st concl output).
Proof. apply emits_one. intros w w' [= <-]. reflexivity. Qed.

Lemma emits_save_last_summary_head_sha (P : Call -> Prop) ctxt :
  P (SaveLastSummaryHeadSha (head_sha (pull ctxt))) ->
  emits P (@save_last_summary_head_sha Rule ctxt).
Proof. apply emits_one. intros w w' [= <-]. reflexivity. Qed.

Lemma emits_delete_last_summary_head_sha (P : Call -> Prop) ctxt :
  P DeleteLastSummaryHeadSha ->
  emits P (@delete_last_summary_head_sha Rule ctxt).
Proof. apply emits_one. intros w w' [= <-]. reflexivity. Qed.

Lemma emits_run_pending_commands_tasks (P : Call -> Prop) ctxt :
  P RunPendingCommandsTasks ->
  emits P (@run_pending_commands_tasks Rule ctxt).
Proof. apply emits_one. intros w w' [= <-]. reflexivity. Qed.

Lemma emits_actions_handle (P : Call -> Prop) rules ctxt :
  P (ActionsHandle rules) -> emits P (@actions_handle Rule rules ctxt).
Proof. apply emits_one. intros w w' [= <-]. reflexivity. Qed.

Lemma emits_handle_comment (P : Call -> Prop) ctxt s :
  (forall b u, P (CommandsHandle b u)) ->
  emits P (@handle_comment Rule ctxt s).
Proof.
  intros HP. unfold handle_comment. destruct (comment (data s)); [| apply emits_raise].
  eapply emits_one; [| apply HP]. intros w w' [= <-]. reflexivity.
Qed.

Lemma emits_get_summary_from_synchronize_event (P : Call -> Prop) ctxt :
  emits P (get_summary_from_synchronize_event ctxt).
Proof.
  intros w w'. unfold Engine.get_summary_from_synchronize_event.
  destruct (_.1); cbn; intros [= <-]; exists []; rewrite app_nil_r;
    (split; [reflexivity | constructor]).
Qed.

Lemma emits_config_ref (P : Call -> Prop) fs ref : emits P (config_ref fs ref).
Proof.
  intros w w' Hfin. exists []. rewrite app_nil_r. split; [| constructor].
  destruct (config_ref_pure fs ref w) as [[r Hr] | Hr]; rewrite Hr in Hfin;
    injection Hfin as <-; reflexivity.
Qed.

Ltac emits_step :=
  first
    [ apply emits_bind; [| intros ?]
    | apply emits_for_each; intros ?
    | apply emits_ret | apply emits_raise | apply emits_gets
    | apply emits_get_summary_from_synchronize_event
    | apply emits_config_ref
    | apply emits_set_check_run
    | apply emits_save_last_summary_head_sha
    | apply emits_run_pending_commands_tasks
    | apply emits_actions_handle
    | apply emits_handle_comment; intros ? ?
    | match goal with
      | |- EngineNotions.emits _ (if ?b then _ else _) => destruct b eqn:?
      | |- EngineNotions.emits _ (match ?x with _ => _ end) => destruct x eqn:?
      end ].

(** X15. A run whose batch holds no closed pull_request event never
    deletes the pointer. *)
Theorem pointer_deleted_only_on_close client pull sub batch (w w' : World) :
  existsb (has_action ["closed"]) batch = false ->
  final (run client pull sub batch w) = Some w' ->
  exists delta,
    calls w' = calls w ++ delta /\ ~ In DeleteLastSummaryHeadSha delta.
Proof.
  intros Hclosed Hfin.
  assert (Hclosed' : existsb (has_action ["closed"])
                       (sources (run_context client pull sub batch)) = false).
  { cbn [sources run_context]. rewrite existsb_filter_keep; [exact Hclosed |].
    intros s. apply has_action_not_comment. }
  assert (Hrun : emits (fun c => c <> DeleteLastSummaryHeadSha)
                   (run client pull sub batch)).
  { unfold Engine.run. fold (run_context client pull sub batch).
    rewrite Hclosed'.
    unfold Engine.check_configuration_changes, Engine.ensure_summary_on_head_sha,
      get_last_summary_head_sha, get_mergify_config.
    repeat emits_step; discriminate. }
  destruct (Hrun w w' Hfin) as (delta & Hd & Hall).
  exists delta. split; [exact Hd |].
  intros Hin. rewrite Forall_forall in Hall.
  apply list_elem_of_In, Hall in Hin. contradiction.
Qed.

Abbreviation extends := (@extends Rule).
Abbreviation logs := (@logs Rule).

(** One step of a run: what was done so far added no call to the
    evaluator, and neither does the next action, whether it raises or
    the run goes on after it. *)
Ltac gate_step Hext Hfin Q :=
  let a := fresh "a" in
  let w1 := fresh "w" in
  let e := fresh "e" in
  let Hm := fresh "Hm" in
  apply final_bind in Hfin as [(a & w1 & Hm & Hfin) | (e & Hm)];
  [ apply (quiet_Ok _ _ _ _ Q) in Hm;
    apply (extends_trans _ _ _ Hext) in Hm;
    clear Hext; rename Hm into Hext
  | left; apply (quiet_Raise _ _ _ _ Q) in Hm;
    exact (extends_trans _ _ _ Hext Hm) ].

(** A run that ends by calling the evaluator got past every gate. *)
Lemma run_shape_gates client pull sub batch (w w' : World) :
  final (run client pull sub batch w) = Some w' ->
  extends w w'
  \/ exists w1 rules,
       extends w w1
       /\ w' = log (ActionsHandle rules) w1
       /\ permissions_need_to_be_updated client = false
       /\ private pull && negb (has_private_repository sub) = false
       /\ List.filter (fun s => negb (is_issue_comment s)) batch <> [].
Proof.
  unfold Engine.run. intros Hfin.
  pose proof (extends_refl w) as Hext.
  gate_step Hext Hfin (quiet_run_pending_commands_tasks (Rule:=Rule)
                         (run_context client pull sub batch)).
  gate_step Hext Hfin (quiet_for_each (Rule:=Rule)
                         (List.filter is_issue_comment batch) _
                         (quiet_handle_comment (Rule:=Rule)
                            (run_context client pull sub batch))).
  cbn [sources] in Hfin.
  destruct (List.filter (fun s => negb (is_issue_comment s)) batch)
    as [| s l] eqn:Hsrc.
  { left. injection Hfin as <-. exact Hext. }
  destruct (permissions_need_to_be_updated client) eqn:Hperm.
  { left. eapply extends_trans; [exact Hext |].
    eapply (quiet_set_check_run (Rule:=Rule) INTEGRATION_ID), Hfin. }
  gate_step Hext Hfin (quiet_check_configuration_changes (Rule:=Rule) INTEGRATION_ID
                        MERGIFY_CONFIG_FILENAMES
                        {| client := client; pull := pull; subscription := sub;
                           sources := s :: l |}).
  destruct a1.
  { left. injection Hfin as <-. exact Hext. }
  unfold bind at 1, get_mergify_config, gets at 1 in Hfin.
  destruct (repo_config w2 None) as [fn cfg | | err] eqn:Hcfg.
  - destruct (private pull && negb (has_private_repository sub)) eqn:Hent.
    { left. eapply extends_trans; [exact Hext |].
      eapply (quiet_set_check_run (Rule:=Rule) INTEGRATION_ID), Hfin. }
    gate_step Hext Hfin (quiet_ensure_summary_on_head_sha (Rule:=Rule) INTEGRATION_ID
                          {| client := client; pull := pull; subscription := sub;
                             sources := s :: l |}).
    apply final_bind in Hfin as [(u & w4 & Hm & Hfin) | (e & Hm)].
    + right. exists w4. eexists. split; [| split; [| auto]].
      * eapply extends_trans; [exact Hext |].
        destruct (existsb _ _) in Hm;
          [eapply quiet_Ok, Hm; apply quiet_delete_last_summary_head_sha
          | eapply quiet_Ok, Hm; apply quiet_ret].
      * injection Hfin as <-. reflexivity.
    + left. eapply extends_trans; [exact Hext |].
      destruct (existsb _ _) in Hm;
        [eapply quiet_Raise, Hm; apply quiet_delete_last_summary_head_sha
        | eapply quiet_Raise, Hm; apply quiet_ret].
  - left. injection Hfin as <-. exact Hext.
  - destruct (existsb _ _) in Hfin.
    + left. eapply extends_trans; [exact Hext |].
      eapply (quiet_set_check_run (Rule:=Rule) INTEGRATION_ID), Hfin.
    + left. injection Hfin as <-. exact Hext.
Qed.

(** X14. The gates are hard: when a run calls the evaluator, the
    permissions are up to date, the repository is not a private one
    without the entitlement, the batch holds an event that is not a
    comment, and the call to the evaluator is the last call of the run and
    the only one. *)
Theorem evaluator_only_past_gates client pull sub batch (w w' : World)
  (delta : list Call) (rules : list Rule) :
  final (run client pull sub batch w) = Some w' ->
  calls w' = calls w ++ delta ->
  In (ActionsHandle rules) delta ->
  permissions_need_to_be_updated client = false
  /\ private pull && negb (has_private_repository sub) = false
  /\ (exists s, In s batch /\ is_issue_comment s = false)
  /\ exists before_it,
       delta = before_it ++ [ActionsHandle rules]
       /\ Forall (fun c => is_actions_handle c = false) before_it.
Proof.
  intros Hfin Hcalls Hin.
  assert (Hquiet : forall d, Forall (fun c => is_actions_handle c = false) d ->
                             In (ActionsHandle rules) d -> False).
  { intros d Hall Hd. rewrite Forall_forall in Hall.
    apply list_elem_of_In, Hall in Hd. discriminate. }
  destruct (run_shape_gates _ _ _ _ _ _ Hfin)
    as [[_ (d & Hd & Hall)]
       | (w1 & rules' & [_ (d & Hd & Hall)] & -> & Hperm & Hent & Hsrc)].
  - rewrite Hd in Hcalls. apply app_inv_head in Hcalls as <-.
    destruct (Hquiet d Hall Hin).
  - cbn in Hcalls. rewrite Hd, <- app_assoc in Hcalls.
    apply app_inv_head in Hcalls as <-.
    apply in_app_or in Hin as [Hin | [Hin | []]]; [destruct (Hquiet d Hall Hin) |].
    injection Hin as <-. split; [exact Hperm |]. split; [exact Hent |]. split.
    + destruct (List.filter _ batch) as [| s l] eqn:Hf; [contradiction |].
      assert (Hs : In s (List.filter (fun s => negb (is_issue_comment s)) batch)).
      { rewrite Hf. left. reflexivity. }
      apply filter_In in Hs as [Hs Hnc]. exists s. split; [exact Hs |].
      destruct (is_issue_comment s); [discriminate | reflexivity].
    + exists d. split; [reflexivity | exact Hall].
Qed.

Lemma logs_snoc (delta : list Call) (c : Call) (w : World) :
  logs (delta ++ [c]) w = log c (logs delta w).
Proof. unfold EngineNotions.logs. rewrite fold_left_app. reflexivity. Qed.

Lemma logs_cons (delta : list Call) (c : Call) (w : World) :
  logs (c :: delta) w = logs delta (log c w).
Proof. reflexivity. Qed.

(** The comments are handed to the command handler one by one, in the
    order of the batch. *)
Lemma for_each_handle_comment ctxt (l : list Source) :
  Forall (fun s => is_Some (comment (data s))) l ->
  forall w : World,
    for_each l (handle_comment ctxt) w = Ok tt (logs (omap handoff l) w).
Proof.
  induction 1 as [| s l [c Hc] _ IH]; intros w; [reflexivity |].
  change (omap handoff (s :: l))
    with (match handoff (Rule:=Rule) s with
          | Some y => y :: omap handoff l
          | None => omap handoff l
          end).
  unfold handoff at 1. rewrite Hc.
  cbn [for_each]. unfold bind, handle_comment at 1. rewrite Hc.
  unfold commands_handle, modify. rewrite IH. reflexivity.
Qed.

Lemma filter_all {A} (p : A -> bool) (l : list A) :
  Forall (fun x => p x = true) l -> List.filter p l = l.
Proof.
  induction 1 as [| x l Hx _ IH]; [reflexivity |]. cbn. rewrite Hx, IH. reflexivity.
Qed.

Lemma filter_none {A} (p : A -> bool) (l : list A) :
  Forall (fun x => p x = true) l -> List.filter (fun x => negb (p x)) l = [].
Proof.
  induction 1 as [| x l Hx _ IH]; [reflexivity |]. cbn. rewrite Hx. exact IH.
Qed.

(** X16. A batch of comments only: the pending commands are run, each
    comment is handed to the command handler with its body and author, in
    the order of the batch, and the run stops there; nothing is published,
    the pointer is not touched and the evaluator is not called. *)
Theorem comments_only_batch client pull sub batch (w : World) :
  Forall (fun s => is_issue_comment s = true) batch ->
  Forall (fun s => is_Some (comment (data s))) batch ->
  run client pull sub batch w
  = Ok tt (logs (RunPendingCommandsTasks :: omap handoff batch) w).
Proof.
  intros Hall Hcomment.
  unfold Engine.run. cbn [sources].
  rewrite (filter_all _ _ Hall), (filter_none _ _ Hall).
  unfold bind at 1. unfold run_pending_commands_tasks, modify.
  unfold bind at 1. rewrite (for_each_handle_comment _ _ Hcomment).
  reflexivity.
Qed.

(** X17. The permissions gate: with an event that is not a comment in the
    batch and stale permissions, the run publishes the permissions failure
    on the head and stops: the pointer is as the commands left it and the
    configuration is not even read. *)
Theorem permissions_gate client pull sub batch (w w1 : World) :
  commands_phase (run_context client pull sub batch) batch w = Ok tt w1 ->
  sources (run_context client pull sub batch) <> [] ->
  permissions_need_to_be_updated client = true ->
  exists w',
    run client pull sub batch w = Ok tt w'
    /\ calls w' = calls w1 ++ [permissions_call (run_context client pull sub batch)]
    /\ last_summary_head_sha w' = last_summary_head_sha w1.
Proof.
  intros Hcmd Hsrc Hperm.
  unfold Engine.run. fold (run_context client pull sub batch).
  unfold commands_phase, bind in Hcmd. unfold bind at 1 2.
  destruct (run_pending_commands_tasks _ w) as [[] w0 | |]; try discriminate.
  rewrite Hcmd.
  destruct (sources (run_context client pull sub batch)) as [| s l];
    [contradiction |].
  rewrite Hperm. eexists. split; [reflexivity |]. split; reflexivity.
Qed.

(** X18. The configuration gate: past the earlier gates, a repository
    without a configuration stops the run with nothing published; an
    invalid configuration stops it too, and the failure with the error's
    message and annotations is published exactly when the batch holds an
    opened or a synchronize pull_request event. *)
Theorem configuration_gate client pull sub batch (w w1 w2 : World) :
  commands_phase (run_context client pull sub batch) batch w = Ok tt w1 ->
  sources (run_context client pull sub batch) <> [] ->
  permissions_need_to_be_updated client = false ->
  check_configuration_changes (run_context client pull sub batch) w1
  = Ok false w2 ->
  match repo_config w2 None with
  | ConfigNoRules => run client pull sub batch w = Ok tt w2
  | ConfigInvalidRules e =>
      if existsb (has_action ["opened"; "synchronize"]) batch
      then exists w',
             run client pull sub batch w = Ok tt w'
             /\ calls w'
                = calls w2 ++ [invalid_call (run_context client pull sub batch) e]
      else run client pull sub batch w = Ok tt w2
  | ConfigFound _ _ => True
  end.
Proof.
  intros Hcmd Hsrc Hperm Hchg.
  assert (Hany : existsb (has_action ["opened"; "synchronize"])
                   (sources (run_context client pull sub batch))
                 = existsb (has_action ["opened"; "synchronize"]) batch).
  { cbn [sources run_context]. apply existsb_filter_keep.
    intros s. apply has_action_not_comment. }
  remember (run client pull sub batch w) as o eqn:Ho.
  unfold Engine.run in Ho. fold (run_context client pull sub batch) in Ho.
  unfold commands_phase, bind in Hcmd. unfold bind at 1 2 in Ho.
  destruct (run_pending_commands_tasks _ w) as [[] w0 | |]; try discriminate.
  rewrite Hcmd in Ho.
  destruct (sources (run_context client pull sub batch)) as [| s l] eqn:Hs;
    [contradiction |].
  rewrite Hperm in Ho. unfold bind at 1 in Ho. rewrite Hchg in Ho.
  unfold bind at 1, get_mergify_config, gets at 1 in Ho.
  destruct (repo_config w2 None) as [fn cfg | | e]; [exact I | exact Ho |].
  rewrite Hany in Ho.
  destruct (existsb _ batch); [| exact Ho].
  eexists. split; [exact Ho | reflexivity].
Qed.

(** X19. The entitlement gate: past the earlier gates, a private
    repository whose subscription lacks the private-repository feature
    gets the failure titled "Mergify is disabled" with the subscription's
    reason as body; the run stops there, the pointer kept even when the
    batch closes the pull request. *)
Theorem entitlement_gate client pull sub batch (w w1 w2 : World) fn cfg :
  commands_phase (run_context client pull sub batch) batch w = Ok tt w1 ->
  sources (run_context client pull sub batch) <> [] ->
  permissions_need_to_be_updated client = false ->
  check_configuration_changes (run_context client pull sub batch) w1
  = Ok false w2 ->
  repo_config w2 None = ConfigFound fn cfg ->
  private pull = true ->
  has_private_repository sub = false ->
  exists w',
    run client pull sub batch w = Ok tt w'
    /\ calls w' = calls w2 ++ [disabled_call (run_context client pull sub batch)]
    /\ last_summary_head_sha w' = last_summary_head_sha w2.
Proof.
  intros Hcmd Hsrc Hperm Hchg Hcfg Hpriv Hfeat.
  unfold Engine.run. fold (run_context client pull sub batch).
  unfold commands_phase, bind in Hcmd. unfold bind at 1 2.
  destruct (run_pending_commands_tasks _ w) as [[] w0 | |]; try discriminate.
  rewrite Hcmd.
  destruct (sources (run_context client pull sub batch)) as [| s l] eqn:Hs;
    [contradiction |].
  rewrite Hperm. unfold bind at 1. rewrite Hchg.
  unfold bind at 1, get_mergify_config, gets at 1. rewrite Hcfg, Hpriv, Hfeat.
  eexists. split; [reflexivity |]. split; reflexivity.
Qed.

End Rules.

(** ** On sample inputs *)

Import EngineSamples MoreSamples.

Abbreviation sample_check :=
  (@check_configuration_changes string sample_id [".mergify.yml"]).

Lemma not_a_configuration_change_witness :
  sample_check (sample_context two_hops)
    (world_with_files [config_file] invalid_everywhere)
  = Ok false (world_with_files [config_file] invalid_everywhere).
Proof.
  apply (not_a_configuration_change sample_id [".mergify.yml"]
           (sample_context two_hops)
           (world_with_files [config_file] invalid_everywhere)).
  left. discriminate.
Defined.

Lemma configuration_change_verdict_witness :
  exists w',
    sample_check default_branch_context
      (world_with_files [config_file; readme_file] invalid_at_ref)
    = Ok true w'
    /\ calls w' = [config_invalid_call default_branch_context sample_error].
Proof.
  apply (configuration_change_verdict sample_id [".mergify.yml"]
           default_branch_context
           (world_with_files [config_file; readme_file] invalid_at_ref)
           [] [readme_file] config_file "0a1b").
  - reflexivity.
  - reflexivity.
  - constructor.
  - reflexivity.
  - reflexivity.
  - constructor; [reflexivity | constructor].
Defined.

Lemma configuration_url_without_ref_witness :
  sample_check default_branch_context
    (world_with_files [config_file; config_file_without_ref; readme_file]
       invalid_at_ref)
  = Raise IndexError
      (world_with_files [config_file; config_file_without_ref; readme_file]
         invalid_at_ref).
Proof.
  apply (configuration_url_without_ref sample_id [".mergify.yml"]
           default_branch_context
           (world_with_files [config_file; config_file_without_ref; readme_file]
              invalid_at_ref)
           [config_file] [readme_file] config_file_without_ref).
  - reflexivity.
  - reflexivity.
  - constructor; [intros _; eexists; reflexivity | constructor].
  - reflexivity.
  - apply (split_second_part "?ref=" (contents_url config_file_without_ref));
      [discriminate | reflexivity].
Defined.

Lemma pointer_summary_republished_witness :
  exists w',
    sample_ensure (sample_context []) (world_with_summary_at "c" (Some "c"))
    = Ok tt w'
    /\ calls w' = republished (sample_context []) sample_summary
    /\ last_summary_head_sha w' = Some "a".
Proof.
  apply (pointer_summary_republished sample_id (sample_context [])
           (world_with_summary_at "c" (Some "c")) "c" sample_summary);
    [reflexivity | reflexivity | discriminate | reflexivity].
Defined.

Lemma walk_returns_nearest_summary_witness :
  @get_summary_from_synchronize_event string sample_id
    (sample_context there_and_back) (world_with_summary_at "b" None)
  = Ok (Some sample_summary) (world_with_summary_at "b" None).
Proof.
  apply (walk_returns_nearest_summary sample_id (sample_context there_and_back)
           (world_with_summary_at "b" None) [("a", "b")] "b" sample_summary).
  - cbn. auto.
  - compute_done.
  - intros a b [= -> ->]%list_elem_of_singleton.
    eexists. split; reflexivity.
  - intros a b [= -> ->]%list_elem_of_singleton Hne. contradiction.
  - reflexivity.
Defined.

Lemma walk_raises_on_missing_before_witness :
  sample_ensure (sample_context [synchronize_without_before "a"])
    (world_with_summary_at "c" None)
  = Raise (KeyError "before") (world_with_summary_at "c" None).
Proof.
  apply (walk_raises_on_missing_before sample_id
           (sample_context [synchronize_without_before "a"])
           (world_with_summary_at "c" None)
           (synchronize_events (sample_context [synchronize_without_before "a"]))
           "a" (data (synchronize_without_before "a")));
    [reflexivity | reflexivity | apply reaches_here | reflexivity | reflexivity].
Defined.

Lemma evaluator_only_past_gates_witness :
  final (sample_run sample_client sample_pull sample_sub two_hops
           (world_with_summary_at "a" None))
  = Some (log (ActionsHandle ["automerge"; "delete head branch"; "backports"])
            (after_commands (world_with_summary_at "a" None)))
  /\ permissions_need_to_be_updated sample_client = false
  /\ private sample_pull && negb (has_private_repository sample_sub) = false
  /\ (exists s, In s two_hops /\ is_issue_comment s = false)
  /\ exists before_it,
       [RunPendingCommandsTasks;
        ActionsHandle ["automerge"; "delete head branch"; "backports"]]
       = before_it ++ [ActionsHandle ["automerge"; "delete head branch"; "backports"]]
       /\ Forall (fun c => is_actions_handle c = false) before_it.
Proof.
  split; [reflexivity |].
  apply (evaluator_only_past_gates sample_id sample_defaults [".mergify.yml"]
           sample_client sample_pull sample_sub two_hops
           (world_with_summary_at "a" None)
           (log (ActionsHandle ["automerge"; "delete head branch"; "backports"])
              (after_commands (world_with_summary_at "a" None)))
           [RunPendingCommandsTasks;
            ActionsHandle ["automerge"; "delete head branch"; "backports"]]
           ["automerge"; "delete head branch"; "backports"]).
  - reflexivity.
  - reflexivity.
  - right. left. reflexivity.
Defined.

Lemma pointer_deleted_only_on_close_witness :
  exists delta,
    calls (log (ActionsHandle ["automerge"; "delete head branch"; "backports"])
             (after_commands (world_with_summary_at "a" (Some "a"))))
    = calls (world_with_summary_at "a" (Some "a")) ++ delta
    /\ ~ In DeleteLastSummaryHeadSha delta.
Proof.
  apply (pointer_deleted_only_on_close sample_id sample_defaults [".mergify.yml"]
           sample_client sample_pull sample_sub two_hops
           (world_with_summary_at "a" (Some "a"))
           (log (ActionsHandle ["automerge"; "delete head branch"; "backports"])
              (after_commands (world_with_summary_at "a" (Some "a")))));
    reflexivity.
Defined.

Lemma comments_only_batch_witness :
  sample_run sample_client sample_pull sample_sub two_comments
    (world_with_summary_at "c" (Some "c"))
  = Ok tt (logs [RunPendingCommandsTasks;
                 CommandsHandle "@mergifyio refresh" "alice";
                 CommandsHandle "@mergifyio rebase" "bob"]
             (world_with_summary_at "c" (Some "c"))).
Proof.
  apply (comments_only_batch sample_id sample_defaults [".mergify.yml"]
           sample_client sample_pull sample_sub two_comments
           (world_with_summary_at "c" (Some "c")));
    repeat constructor; eexists; reflexivity.
Defined.

Lemma permissions_gate_witness :
  exists w',
    sample_run stale_client sample_pull sample_sub closing
      (world_with_summary_at "c" (Some "c"))
    = Ok tt w'
    /\ calls w'
       = [RunPendingCommandsTasks;
          permissions_call (run_context stale_client sample_pull sample_sub closing)]
    /\ last_summary_head_sha w' = Some "c".
Proof.
  apply (permissions_gate sample_id sample_defaults [".mergify.yml"]
           stale_client sample_pull sample_sub closing
           (world_with_summary_at "c" (Some "c"))
           (after_commands (world_with_summary_at "c" (Some "c"))));
    [reflexivity | discriminate | reflexivity].
Defined.

Lemma configuration_gate_witness :
  exists w',
    sample_run sample_client sample_pull sample_sub [opened]
      (world_with_files [] invalid_everywhere)
    = Ok tt w'
    /\ calls w'
       = [RunPendingCommandsTasks;
          invalid_call (run_context sample_client sample_pull sample_sub [opened])
            sample_error].
Proof.
  apply (configuration_gate sample_id sample_defaults [".mergify.yml"]
           sample_client sample_pull sample_sub [opened]
           (world_with_files [] invalid_everywhere)
           (after_commands (world_with_files [] invalid_everywhere))
           (after_commands (world_with_files [] invalid_everywhere)));
    [reflexivity | discriminate | reflexivity | reflexivity].
Defined.

Lemma entitlement_gate_witness :
  exists w',
    sample_run sample_client private_pull lapsed_sub closing
      (world_with_summary_at "a" (Some "a"))
    = Ok tt w'
    /\ calls w'
       = [RunPendingCommandsTasks;
          disabled_call (run_context sample_client private_pull lapsed_sub closing)]
    /\ last_summary_head_sha w' = Some "a".
Proof.
  apply (entitlement_gate sample_id sample_defaults [".mergify.yml"]
           sample_client private_pull lapsed_sub closing
           (world_with_summary_at "a" (Some "a"))
           (after_commands (world_with_summary_at "a" (Some "a")))
           (after_commands (world_with_summary_at "a" (Some "a")))
           ".mergify.yml" {| pull_request_rules := ["automerge"] |});
    [reflexivity | discriminate | reflexivity | reflexivity | reflexivity
    | reflexivity | reflexivity].
Defined.

End EngineMore.
